(** * rate_limit_mcp: a shallow embedding of [src/rate_limit_mcp/main.py]

    The server reads bucket definitions from the environment
    ([init_buckets]), registers one MCP tool per bucket ([init_tools]) and
    a generic tool ([rate_limit]).  Everything the module computes itself is
    modelled here: the string handling of the bucket definitions, the
    registry [LIMITERS], the closures that [init_tools] creates and the
    dispatch of the tools.  The [pyrate_limiter] package and Redis are not
    part of the module: they appear as the operations of two interfaces,
    [Durations] and [Library].  Of the library's values only this is
    assumed: its durations are positive, and [Rate] accepts a positive limit
    with a positive interval and refuses a zero.  Nothing is assumed of the
    buckets, the limiters and Redis. *)

From Stdlib Require Import ZArith List String Ascii Bool Lia.
Import ListNotations.

(** ** Python values and builtins *)

Module Py.

(** The exceptions that the module can raise, and those of the library. *)
Inductive exn : Type :=
| ValueError
| IndexError
| KeyError
| NameError
| AssertionError
| LibraryError (name : string).

(** The outcome of evaluating an expression. *)
Inductive result (A : Type) : Type :=
| Return (a : A)
| Raise (e : exn).

Arguments Return {A} a.
Arguments Raise {A} e.

Definition bind {A B : Type} (r : result A) (k : A -> result B) : result B :=
  match r with
  | Return a => k a
  | Raise e => Raise e
  end.

(** A [str] is a sequence of code points; the model covers the code points
    below 256, one [ascii] each. *)
Definition chars (s : string) : list ascii := list_ascii_of_string s.

(** [count_char c s]: [s.count(c)] for a one-character [c]. *)
Fixpoint count_char (c : ascii) (s : string) : nat :=
  match s with
  | EmptyString => 0
  | String a r => (if Ascii.eqb a c then 1 else 0) + count_char c r
  end.

(** [split sep s]: [s.split(sep)] for a one-character separator.  The result
    is never empty: the empty string splits into one empty piece. *)
Fixpoint split (sep : ascii) (s : string) : list string :=
  match s with
  | EmptyString => [EmptyString]
  | String a r =>
      if Ascii.eqb a sep then EmptyString :: split sep r
      else match split sep r with
           | piece :: pieces => String a piece :: pieces
           | [] => [String a EmptyString]
           end
  end.

(** [join sep pieces]: [sep.join(pieces)]. *)
Fixpoint join (sep : ascii) (pieces : list string) : string :=
  match pieces with
  | [] => EmptyString
  | [p] => p
  | p :: rest => p ++ String sep (join sep rest)
  end.

(** [drop_last s]: the slice [s[:-1]]; the empty string gives the empty
    string. *)
Fixpoint drop_last (s : string) : string :=
  match s with
  | EmptyString => EmptyString
  | String a r =>
      match r with
      | EmptyString => EmptyString
      | String _ _ => String a (drop_last r)
      end
  end.

(** [last_char s]: the index [s[-1]], which raises [IndexError] on the empty
    string. *)
Fixpoint last_char (s : string) : result ascii :=
  match s with
  | EmptyString => Raise IndexError
  | String a r =>
      match r with
      | EmptyString => Return a
      | String _ _ => last_char r
      end
  end.

(** [strip_prefix prefix s]: the rest of [s] after [prefix], when [s] starts
    with it. *)
Fixpoint strip_prefix (prefix s : string) : option string :=
  match prefix with
  | EmptyString => Some s
  | String a p =>
      match s with
      | EmptyString => None
      | String b r => if Ascii.eqb a b then strip_prefix p r else None
      end
  end.

(** [startswith s prefix]: [s.startswith(prefix)]. *)
Definition startswith (s prefix : string) : bool :=
  match strip_prefix prefix s with Some _ => true | None => false end.

(** [removeprefix s prefix]: [s.removeprefix(prefix)]. *)
Definition removeprefix (s prefix : string) : string :=
  match strip_prefix prefix s with Some r => r | None => s end.

(** *** [int(s)] on a string, base 10

    Surrounding whitespace is stripped, one sign may lead, and the digits
    may be grouped by single underscores.  Whitespace is the ASCII set
    [\t \n \v \f \r] and space, and of the other code points below 256 the
    two Unicode spaces NEL (133) and NBSP (160). *)

Definition is_space (c : ascii) : bool :=
  let n := N_of_ascii c in
  (((9 <=? n) && (n <=? 13)) || (n =? 32) || (n =? 133) || (n =? 160))%N.

Definition digit (c : ascii) : option Z :=
  let n := N_of_ascii c in
  if ((48 <=? n) && (n <=? 57))%N then Some (Z.of_N n - 48)%Z else None.

Fixpoint lstrip (l : list ascii) : list ascii :=
  match l with
  | [] => []
  | c :: r => if is_space c then lstrip r else l
  end.

Definition strip (l : list ascii) : list ascii :=
  rev (lstrip (rev (lstrip l))).

(** What the digit scanner has just read. *)
Inductive scanned : Type := Nothing | ADigit | AnUnderscore.

(** [scan prev acc n l]: reads the digits of [l] after [prev], with [acc] the
    value and [n] the number of digits read so far.  An underscore is
    accepted only between two digits. *)
Fixpoint scan (prev : scanned) (acc : Z) (n : Z) (l : list ascii) : option (Z * Z) :=
  match l with
  | [] => match prev with ADigit => Some (acc, n) | _ => None end
  | c :: r =>
      if Ascii.eqb c "_" then
        match prev with ADigit => scan AnUnderscore acc n r | _ => None end
      else
        match digit c with
        | Some d => scan ADigit (10 * acc + d)%Z (n + 1)%Z r
        | None => None
        end
  end.

(** The interpreter's limit on the digits of a decimal literal converted by
    [int] ([sys.get_int_max_str_digits()], 4300 unless reconfigured). *)
Definition max_str_digits : Z := 4300.

Definition int (s : string) : result Z :=
  let l := strip (chars s) in
  let '(negative, body) :=
    match l with
    | c :: r =>
        if Ascii.eqb c "-" then (true, r)
        else if Ascii.eqb c "+" then (false, r)
        else (false, l)
    | [] => (false, l)
    end in
  match scan Nothing 0 0 body with
  | Some (v, n) =>
      if (max_str_digits <? n)%Z then Raise ValueError
      else Return (if negative then (- v)%Z else v)
  | None => Raise ValueError
  end.

(** A [dict] with string keys: the entries in insertion order, each key at
    most once.  [setitem] on a present key rebinds it in place. *)
Definition dict (V : Type) : Type := list (string * V).

Fixpoint getitem {V : Type} (d : dict V) (k : string) : result V :=
  match d with
  | [] => Raise KeyError
  | (k', v) :: rest => if String.eqb k' k then Return v else getitem rest k
  end.

Fixpoint setitem {V : Type} (d : dict V) (k : string) (v : V) : dict V :=
  match d with
  | [] => [(k, v)]
  | (k', v') :: rest =>
      if String.eqb k' k then (k, v) :: rest else (k', v') :: setitem rest k v
  end.

Definition keys {V : Type} (d : dict V) : list string := map fst d.

End Py.

Import Py.

Declare Scope py_scope.
Delimit Scope py_scope with py.
Notation "x <- e ;; k" := (bind e (fun x => k))
  (at level 61, e at next level, right associativity) : py_scope.
Open Scope py_scope.
Open Scope string_scope.
Open Scope Z_scope.

(** ** The [pyrate_limiter] values that [init_buckets] builds *)

(** A [Rate] object: the limit and the interval it was built with. *)
Record Rate : Type := mkRate { limit : Z; interval : Z }.

(** What [init_buckets] uses of [pyrate_limiter] while it parses: the integer
    values of [pyrate_limiter.Duration], in the library's base unit, and the
    constructor [Rate(limit, interval)], which is a call into the library
    and can raise.  [Rate_raises limit interval] is the exception of that
    call, if it raises one.  The library is not part of the module, so the
    constructor is known by three facts only: the durations are positive, a
    positive limit with a positive interval is accepted, and a limit or an
    interval of zero is refused.  What it does with negative numbers is left
    open. *)
Class Durations : Type := {
  SECOND : Z;
  MINUTE : Z;
  HOUR : Z;
  DAY : Z;
  WEEK : Z;
  Rate_raises : Z -> Z -> option exn;
  durations_positive : 0 < SECOND /\ 0 < MINUTE /\ 0 < HOUR /\ 0 < DAY /\ 0 < WEEK;
  Rate_accepts :
    forall limit interval,
      0 < limit -> 0 < interval -> Rate_raises limit interval = None;
  Rate_refuses_zero :
    forall limit interval,
      limit = 0 \/ interval = 0 -> Rate_raises limit interval <> None
}.

(** The call [Rate(limit, interval)]. *)
Definition Rate_init {D : Durations} (limit interval : Z) : result Rate :=
  match Rate_raises limit interval with
  | Some e => Raise e
  | None => Return (mkRate limit interval)
  end.

(** ** [init_buckets]: parsing one bucket definition *)

Section Parsing.

Context {D : Durations}.

(** The body of [for limit in limits]: [rates] before the iteration, and
    after it.  [reqs, interval = limit.split("/")] raises [ValueError] unless
    there are exactly two pieces; [interval[-1]] raises [IndexError] on an
    empty interval; [int(reqs)] and then [Rate(...)] are evaluated inside
    the arm that matches, and no arm matches any other letter. *)
Definition parse_limit (rates : list Rate) (limit : string) : result (list Rate) :=
  match split "/" limit with
  | [reqs; interval] =>
      let count := drop_last interval in
      count <- (if String.eqb count "" then Return 1 else int count) ;;
      unit <- last_char interval ;;
      match unit with
      | "c"%char =>
          r <- int reqs ;; rate <- Rate_init r (count * 10) ;; Return (rates ++ [rate])%list
      | "s"%char =>
          r <- int reqs ;; rate <- Rate_init r (count * SECOND) ;; Return (rates ++ [rate])%list
      | "m"%char =>
          r <- int reqs ;; rate <- Rate_init r (count * MINUTE) ;; Return (rates ++ [rate])%list
      | "h"%char =>
          r <- int reqs ;; rate <- Rate_init r (count * HOUR) ;; Return (rates ++ [rate])%list
      | "d"%char =>
          r <- int reqs ;; rate <- Rate_init r (count * DAY) ;; Return (rates ++ [rate])%list
      | "w"%char =>
          r <- int reqs ;; rate <- Rate_init r (count * WEEK) ;; Return (rates ++ [rate])%list
      | _ => Return rates
      end
  | _ => Raise ValueError
  end.

(** [for limit in limits: ...], from the given [rates]. *)
Fixpoint parse_limits (rates : list Rate) (limits : list string) : result (list Rate) :=
  match limits with
  | [] => Return rates
  | limit :: rest => rates' <- parse_limit rates limit ;; parse_limits rates' rest
  end.

(** The rates of one bucket definition: [limits = value.split(",")],
    [rates = []], then the loop. *)
Definition parse_rates (value : string) : result (list Rate) :=
  parse_limits [] (split "," value).

End Parsing.

(** ** The library operations that the module calls *)

(** [RedisBucket.init(rates, redis_conn, bucket_name)], [Limiter(bucket)] and
    [limiter.try_acquire(item, blocking=blocking)].  [Store] is everything
    these calls can read and change: Redis behind the one connection
    [redis_conn], and the state of the library's own objects.  Each call may
    raise. *)
Class Library : Type := {
  RedisBucket : Type;
  Limiter : Type;
  Store : Type;
  RedisBucket_init : list Rate -> string -> Store -> result RedisBucket * Store;
  Limiter_new : RedisBucket -> Store -> result Limiter * Store;
  try_acquire : Limiter -> string -> bool -> Store -> result bool * Store
}.

(** ** The state of the server process *)

Section Server.

Context {D : Durations} {L : Library}.

(** A function object: the module-level function [rate_limit], or one made
    by [def inner] in [init_tools].  The free variable [key] of [inner] is
    not copied into it: the function refers to the cell of the frame of
    [init_tools] in which it was defined. *)
Inductive function : Type :=
| rate_limit_function
| inner_of (frame : nat).

(** A tool registered with [mcp.tool(fn, name=..., description=...)]. *)
Record Tool : Type := mkTool {
  fn : function;
  name : string;
  description : string
}.

(** [LIMITERS] is the module's global dict; [cells] holds the variable [key]
    of every frame of [init_tools] ([None]: not yet bound); [tools] are the
    tools registered with the server, by name; [store] belongs to the
    library. *)
Record world : Type := mkWorld {
  LIMITERS : dict Limiter;
  cells : list (option string);
  tools : dict Tool;
  store : Store
}.

(** Statements run in a state: they end normally or raise, and leave a
    state behind either way. *)
Definition M (A : Type) : Type := world -> result A * world.

Definition ret {A : Type} (a : A) : M A := fun w => (Return a, w).

Definition raise {A : Type} (e : exn) : M A := fun w => (Raise e, w).

Definition bindM {A B : Type} (m : M A) (k : A -> M B) : M B :=
  fun w =>
    match m w with
    | (Return a, w') => k a w'
    | (Raise e, w') => (Raise e, w')
    end.

Definition eval {A : Type} (r : result A) : M A := fun w => (r, w).

(** A call into the library: it sees and changes the store only. *)
Definition call {A : Type} (f : Store -> result A * Store) : M A :=
  fun w =>
    let '(r, s) := f (store w) in
    (r, mkWorld (LIMITERS w) (cells w) (tools w) s).

(** [for x in xs: body]. *)
Fixpoint for_each {A : Type} (xs : list A) (body : A -> M unit) : M unit :=
  match xs with
  | [] => ret tt
  | x :: rest => bindM (body x) (fun _ => for_each rest body)
  end.

End Server.

Notation "x <-- e ;; k" := (bindM e (fun x => k))
  (at level 61, e at next level, right associativity) : py_scope.
Notation "e ;;; k" := (bindM e (fun _ => k))
  (at level 61, right associativity) : py_scope.

Section Main.

Context {D : Durations} {L : Library}.

(** [LIMITERS[k]]. *)
Definition LIMITERS_getitem (k : string) : M Limiter :=
  fun w => (getitem (LIMITERS w) k, w).

(** [LIMITERS[k] = limiter]. *)
Definition LIMITERS_setitem (k : string) (limiter : Limiter) : M unit :=
  fun w => (Return tt, mkWorld (setitem (LIMITERS w) k limiter) (cells w) (tools w) (store w)).

(** The body of [for key, value in os.environ.items()]. *)
Definition init_bucket (bucket_prefix key value : string) : M unit :=
  if startswith key bucket_prefix then
    let bucket_name := removeprefix key bucket_prefix in
    rates <-- eval (parse_rates value) ;;
    bucket <-- call (RedisBucket_init rates bucket_name) ;;
    limiter <-- call (Limiter_new bucket) ;;
    LIMITERS_setitem bucket_name limiter
  else ret tt.

(** [init_buckets()], with [args.bucket_prefix] and [os.environ.items()]
    given.  An exception ends the function where it is raised; the buckets
    registered before it stay in [LIMITERS]. *)
Definition init_buckets (bucket_prefix : string) (environ : list (string * string)) : M unit :=
  for_each environ (fun '(key, value) => init_bucket bucket_prefix key value).

(** Entering [init_tools] makes a frame, with [key] unbound. *)
Definition new_frame : M nat :=
  fun w => (Return (List.length (cells w)),
            mkWorld (LIMITERS w) (cells w ++ [None])%list (tools w) (store w)).

Fixpoint update {A : Type} (l : list A) (i : nat) (a : A) : list A :=
  match l, i with
  | [], _ => []
  | _ :: r, O => a :: r
  | x :: r, S j => x :: update r j a
  end.

(** The [for] statement binds [key] in the frame. *)
Definition assign_key (frame : nat) (key : string) : M unit :=
  fun w => (Return tt,
            mkWorld (LIMITERS w) (update (cells w) frame (Some key)) (tools w) (store w)).

(** Reading the free variable [key] from inside [inner]. *)
Definition load_key (frame : nat) : M string :=
  fun w =>
    match nth_error (cells w) frame with
    | Some (Some key) => (Return key, w)
    | _ => (Raise NameError, w)
    end.

(** [mcp.tool(fn, name=..., description=...)]: a tool registered under a name
    already in use takes the place of the earlier one. *)
Definition mcp_tool (t : Tool) : M unit :=
  fun w => (Return tt, mkWorld (LIMITERS w) (cells w) (setitem (tools w) (name t) t) (store w)).

(** The body of [for key in LIMITERS.keys()]: the loop binds [key], [def]
    makes a function in the current frame, and [mcp.tool] registers it under
    the name and the description formatted now. *)
Definition register_tool (frame : nat) (key : string) : M unit :=
  assign_key frame key ;;;
  mcp_tool (mkTool (inner_of frame) ("limit-" ++ key)
                   ("Acquire a permit for the bucket " ++ key)).

(** [init_tools()]. *)
Definition init_tools : M unit :=
  frame <-- new_frame ;;
  registered <-- (fun w => (Return (keys (LIMITERS w)), w)) ;;
  for_each registered (register_tool frame).

(** The body of [inner], run in the frame it was defined in:
    [return LIMITERS[key].try_acquire(item, blocking=blocking)]. *)
Definition inner (frame : nat) (blocking : bool) (item : string) : M bool :=
  key <-- load_key frame ;;
  limiter <-- LIMITERS_getitem key ;;
  call (try_acquire limiter item blocking).

(** The tool [rate-limit]:
    [return LIMITERS[bucket].try_acquire(item, blocking=blocking)]. *)
Definition rate_limit (bucket : string) (blocking : bool) (item : string) : M bool :=
  limiter <-- LIMITERS_getitem bucket ;;
  call (try_acquire limiter item blocking).

(** A client calling the tool [tool_name] with the arguments [blocking] and
    [item], which are all the arguments of a generated tool.  The server
    runs the function registered under that name; it answers a name it does
    not know with its own [NotFoundError], and it refuses the call of
    [rate_limit], whose argument [bucket] is required and not given, before
    the function runs. *)
Definition call_tool (tool_name : string) (blocking : bool) (item : string) : M bool :=
  fun w =>
    match getitem (tools w) tool_name with
    | Return t =>
        match fn t with
        | rate_limit_function => (Raise (LibraryError "ValidationError"), w)
        | inner_of frame => inner frame blocking item w
        end
    | Raise _ => (Raise (LibraryError "NotFoundError"), w)
    end.

(** [main()] up to [mcp.run()]. *)
Definition main (bucket_prefix : string) (environ : list (string * string)) : M unit :=
  init_buckets bucket_prefix environ ;;;
  init_tools.

(** The tool that the decorator [@mcp.tool(name="rate-limit")] registers when
    the module is loaded; its description is the docstring of the
    function. *)
Definition rate_limit_tool : Tool :=
  mkTool rate_limit_function "rate-limit" "Wait until a permit for `bucket` is available".

(** The process before [main]: the module-level [LIMITERS = dict()], no
    frame, and the tool [rate-limit]. *)
Definition start (s : Store) : world :=
  mkWorld [] [] [("rate-limit", rate_limit_tool)] s.

(** What a client can ask of the running server: the tool [rate-limit] with
    all its arguments, which runs [rate_limit], or a tool by its name with
    [blocking] and [item]. *)
Inductive invocation : Type :=
| generic (bucket : string) (blocking : bool) (item : string)
| generated (tool_name : string) (blocking : bool) (item : string).

Definition invoke (i : invocation) : M bool :=
  match i with
  | generic bucket blocking item => rate_limit bucket blocking item
  | generated tool_name blocking item => call_tool tool_name blocking item
  end.

(** The state after serving the invocations in turn; an invocation that
    raises is answered with an error and the server goes on. *)
Fixpoint serve (invocations : list invocation) (w : world) : world :=
  match invocations with
  | [] => w
  | i :: rest => serve rest (snd (invoke i w))
  end.

End Main.

(** The library as it is used to run the definitions on concrete input: the
    values of [pyrate_limiter.Duration] in milliseconds, and a [Rate] that
    asserts an interval that is not zero and a positive limit. *)
Definition milliseconds : Durations.
Proof.
  refine {| SECOND := 1000; MINUTE := 60000; HOUR := 3600000;
            DAY := 86400000; WEEK := 604800000;
            Rate_raises := fun limit interval =>
              if (interval =? 0) || (limit <=? 0) then Some AssertionError
              else None |}.
  - repeat split.
  - intros limit interval Hl Hi.
    destruct (Z.eqb_spec interval 0); [lia|].
    destruct (Z.leb_spec limit 0); [lia|reflexivity].
  - intros limit interval [->| ->].
    + destruct (interval =? 0); discriminate.
    + discriminate.
Defined.

(** A stand-in for the library, used to run the definitions on concrete
    input: every constructor succeeds, a limiter is the bucket it was made
    from, every permit is granted, and the store lists the buckets and items
    that were asked for, latest first. *)
Definition granting : Library :=
  {| RedisBucket := list Rate * string;
     Limiter := list Rate * string;
     Store := list (string * string);
     RedisBucket_init := fun rates bucket_name s => (Return (rates, bucket_name), s);
     Limiter_new := fun bucket s => (Return bucket, s);
     try_acquire := fun limiter item _ s => (Return true, (snd limiter, item) :: s) |}.

(** ** The letters of the [match] statement *)

(** The factor that the arm of [match unit] applies to [count], for the
    letters that have an arm. *)
Definition multiplier {D : Durations} (unit : ascii) : option Z :=
  match unit with
  | "c"%char => Some 10
  | "s"%char => Some SECOND
  | "m"%char => Some MINUTE
  | "h"%char => Some HOUR
  | "d"%char => Some DAY
  | "w"%char => Some WEEK
  | _ => None
  end.

(** The duration of a documented time unit: [s], [m], [h], [d] and [w] are
    seconds, minutes, hours, days and weeks. *)
Definition unit_duration {D : Durations} (unit : ascii) : option Z :=
  match unit with
  | "s"%char => Some SECOND
  | "m"%char => Some MINUTE
  | "h"%char => Some HOUR
  | "d"%char => Some DAY
  | "w"%char => Some WEEK
  | _ => None
  end.

Definition is_digit (c : ascii) : bool :=
  match digit c with Some _ => true | None => false end.

(** The characters that a string accepted by [int] can contain. *)
Definition int_char (c : ascii) : bool :=
  is_space c || Ascii.eqb c "-" || Ascii.eqb c "+" || Ascii.eqb c "_"
  || is_digit c.

(** The letters that have an arm in [match unit]. *)
Definition has_arm (unit : ascii) : bool :=
  existsb (Ascii.eqb unit) ["c"; "s"; "m"; "h"; "d"; "w"]%char.


(** A tool name bound to a function of the frame [frame]. *)
Definition bound_in {L : Library} (frame : nat) (ts : dict Tool) (tool_name : string) : Prop :=
  exists t, getitem ts tool_name = Return t /\ fn t = inner_of frame.

(** Case analysis on a character, bit by bit. *)
Ltac each_letter u :=
  destruct u as [[] [] [] [] [] [] [] []]; try reflexivity; try discriminate.

(** The names of the buckets that an environment defines: for every variable
    whose name starts with the prefix, in the order of the environment, the
    name without the prefix. *)
Definition bucket_names (bucket_prefix : string) (environ : list (string * string)) : list string :=
  map (fun kv => removeprefix (fst kv) bucket_prefix)
      (filter (fun kv => startswith (fst kv) bucket_prefix) environ).

(** A decimal numeral: one digit or more, and nothing else. *)
Definition numeral (s : string) : bool :=
  negb (String.eqb s "")
  && forallb is_digit (chars s).

(** The number that a numeral writes, most significant digit first. *)
Definition numeral_value (s : string) : Z :=
  fold_left (fun acc c => 10 * acc + match digit c with Some d => d | None => 0 end)
            (chars s) 0.

(** * Properties of the builtins *)

Section Strings.

Lemma count_char_app (c : ascii) (a b : string) :
  count_char c (a ++ b) = (count_char c a + count_char c b)%nat.
Proof.
  induction a as [|x a IH]; simpl; [reflexivity|].
  rewrite IH. lia.
Qed.

Lemma length_split (sep : ascii) (s : string) :
  List.length (split sep s) = S (count_char sep s).
Proof.
  induction s as [|a s IH]; simpl; [reflexivity|].
  destruct (Ascii.eqb a sep); simpl; [now rewrite IH|].
  destruct (split sep s) as [|piece pieces]; simpl in *; [discriminate|exact IH].
Qed.

Lemma split_without (sep : ascii) (s : string) :
  count_char sep s = 0%nat -> split sep s = [s].
Proof.
  induction s as [|a s IH]; simpl; [reflexivity|].
  destruct (Ascii.eqb a sep); simpl; [discriminate|].
  intros H. now rewrite (IH H).
Qed.

Lemma split_app (sep : ascii) (a b : string) :
  count_char sep a = 0%nat ->
  split sep (a ++ String sep b) = a :: split sep b.
Proof.
  induction a as [|x a IH]; simpl.
  - intros _. now rewrite Ascii.eqb_refl.
  - destruct (Ascii.eqb x sep); simpl; [discriminate|].
    intros H. now rewrite (IH H).
Qed.

Lemma drop_last_app (s : string) (c : ascii) :
  drop_last (s ++ String c "") = s.
Proof.
  induction s as [|a s IH]; simpl; [reflexivity|].
  rewrite IH. destruct s; reflexivity.
Qed.

Lemma last_char_app (s : string) (c : ascii) :
  last_char (s ++ String c "") = Return c.
Proof.
  induction s as [|a s IH]; simpl; [reflexivity|].
  rewrite IH. destruct s; reflexivity.
Qed.

Lemma last_char_cons (a : ascii) (s : string) (u : ascii) :
  last_char s = Return u -> last_char (String a s) = Return u.
Proof. destruct s; simpl; [discriminate|trivial]. Qed.

(** The last character of the last piece is the last character of the
    whole string. *)
Lemma last_char_split (sep : ascii) (s : string) (u : ascii) :
  last_char (last (split sep s) "") = Return u -> last_char s = Return u.
Proof.
  induction s as [|a s IH]; [trivial|].
  cbn [split]. destruct (Ascii.eqb a sep).
  - pose proof (length_split sep s) as Hl.
    destruct (split sep s) as [|p ps] eqn:E; [discriminate|].
    intros H. apply last_char_cons, IH. exact H.
  - pose proof (length_split sep s) as Hl.
    destruct (split sep s) as [|p ps] eqn:E; [discriminate|].
    destruct ps as [|q qs].
    + simpl in *. destruct p; simpl.
      * destruct s; [trivial|].
        intros _. exfalso. simpl in E, Hl.
        destruct (Ascii.eqb a0 sep); [discriminate Hl|].
        destruct (split sep s); discriminate E.
      * intros H. apply last_char_cons, IH. exact H.
    + intros H. apply last_char_cons, IH. exact H.
Qed.

Lemma strip_prefix_app (p r : string) : strip_prefix p (p ++ r) = Some r.
Proof.
  induction p as [|a p IH]; simpl; [reflexivity|].
  now rewrite Ascii.eqb_refl.
Qed.

Lemma strip_prefix_inv (p s r : string) :
  strip_prefix p s = Some r -> s = p ++ r.
Proof.
  revert s. induction p as [|a p IH]; simpl; intros s H.
  - congruence.
  - destruct s as [|b s]; [discriminate|].
    destruct (Ascii.eqb_spec a b); [|discriminate].
    subst. f_equal. now apply IH.
Qed.

Lemma app_inv_head (p a b : string) : p ++ a = p ++ b -> a = b.
Proof.
  induction p as [|x p IH]; simpl; intros H; [exact H|].
  apply IH. now inversion H.
Qed.

End Strings.

Section Int.

Lemma in_chars_count (c : ascii) (s : string) :
  count_char c s <> 0%nat -> In c (chars s).
Proof.
  induction s as [|a s IH]; simpl; [congruence|].
  destruct (Ascii.eqb_spec a c); [now left|].
  intros H. right. now apply IH.
Qed.

Lemma lstrip_Forall (P : ascii -> Prop) (l : list ascii) :
  (forall c, is_space c = true -> P c) ->
  Forall P (lstrip l) -> Forall P l.
Proof.
  intros Hs. induction l as [|c l IH]; simpl; [trivial|].
  destruct (is_space c) eqn:E; [|trivial].
  intros H. constructor; auto.
Qed.

Lemma strip_Forall (P : ascii -> Prop) (l : list ascii) :
  (forall c, is_space c = true -> P c) ->
  Forall P (strip l) -> Forall P l.
Proof.
  intros Hs H. unfold strip in H.
  apply (lstrip_Forall _ _ Hs).
  apply Forall_rev in H. rewrite rev_involutive in H.
  apply (lstrip_Forall _ _ Hs) in H.
  apply Forall_rev in H. now rewrite rev_involutive in H.
Qed.

Lemma scan_Forall (l : list ascii) :
  forall prev acc n r,
    scan prev acc n l = Some r -> Forall (fun c => int_char c = true) l.
Proof.
  induction l as [|c l IH]; intros prev acc n r; simpl; [constructor|].
  unfold int_char at 1.
  destruct (Ascii.eqb c "_") eqn:U.
  - destruct prev; try discriminate.
    intros H. constructor; [|eapply IH; eassumption].
    unfold int_char. rewrite U. now rewrite !orb_true_r.
  - destruct (digit c) eqn:Dg; [|discriminate].
    intros H. constructor; [|eapply IH; eassumption].
    unfold int_char, is_digit. rewrite Dg. now rewrite !orb_true_r.
Qed.

(** [int] raises nothing but [ValueError]. *)
Lemma int_raises (s : string) (e : exn) : int s = Raise e -> e = ValueError.
Proof.
  unfold int.
  destruct (match strip (chars s) with
            | [] => (false, strip (chars s))
            | c :: r => _
            end) as [negative body].
  destruct (scan Nothing 0 0 body) as [[v n]|]; [|congruence].
  destruct (max_str_digits <? n); congruence.
Qed.

(** A string that [int] accepts consists of whitespace, signs, underscores
    and digits. *)
Lemma int_chars (s : string) (v : Z) :
  int s = Return v -> Forall (fun c => int_char c = true) (chars s).
Proof.
  unfold int. intros H.
  apply strip_Forall.
  { intros c Hc. unfold int_char. now rewrite Hc. }
  destruct (strip (chars s)) as [|c r] eqn:E; [constructor|].
  destruct (Ascii.eqb c "-") eqn:Em; [|destruct (Ascii.eqb c "+") eqn:Ep].
  - constructor.
    + unfold int_char. rewrite Em. now rewrite !orb_true_r.
    + destruct (scan Nothing 0 0 r) as [[x n]|] eqn:Sc; [|discriminate].
      eapply scan_Forall; eassumption.
  - constructor.
    + unfold int_char. rewrite Ep. now rewrite !orb_true_r.
    + destruct (scan Nothing 0 0 r) as [[x n]|] eqn:Sc; [|discriminate].
      eapply scan_Forall; eassumption.
  - destruct (scan Nothing 0 0 (c :: r)) as [[x n]|] eqn:Sc; [|discriminate].
    eapply scan_Forall; eassumption.
Qed.

Lemma int_without (s : string) (v : Z) (c : ascii) :
  int s = Return v -> int_char c = false -> count_char c s = 0%nat.
Proof.
  intros H Hc.
  destruct (count_char c s) eqn:E; [reflexivity|].
  exfalso.
  assert (In c (chars s)) as Hin by (apply in_chars_count; congruence).
  pose proof (int_chars s v H) as Hall.
  rewrite Forall_forall in Hall. specialize (Hall c Hin). congruence.
Qed.

Lemma int_nonempty (s : string) (v : Z) : int s = Return v -> s <> "".
Proof. intros H ->. discriminate H. Qed.

Lemma digit_not_space (c : ascii) : is_digit c = true -> is_space c = false.
Proof.
  unfold is_digit, digit, is_space.
  destruct (48 <=? N_of_ascii c)%N eqn:E1; [|discriminate].
  destruct (N_of_ascii c <=? 57)%N eqn:E2; [|discriminate].
  intros _. apply N.leb_le in E1, E2.
  repeat match goal with
         | |- context [(?a <=? ?b)%N] => destruct (N.leb_spec a b)
         | |- context [(?a =? ?b)%N] => destruct (N.eqb_spec a b)
         end; try reflexivity; lia.
Qed.

Lemma digit_not_sign (c : ascii) :
  is_digit c = true ->
  Ascii.eqb c "-" = false /\ Ascii.eqb c "+" = false /\ Ascii.eqb c "_" = false.
Proof.
  intros H. repeat split;
    destruct (Ascii.eqb_spec c "-"), (Ascii.eqb_spec c "+"), (Ascii.eqb_spec c "_");
    subst; try reflexivity; discriminate H.
Qed.

Lemma lstrip_digits (l : list ascii) :
  forallb is_digit l = true -> lstrip l = l.
Proof.
  destruct l as [|c l]; simpl; [reflexivity|].
  intros H. apply andb_true_iff in H. destruct H as [Hc _].
  now rewrite (digit_not_space _ Hc).
Qed.

Lemma strip_digits (l : list ascii) :
  forallb is_digit l = true -> strip l = l.
Proof.
  intros H. unfold strip. rewrite (lstrip_digits _ H).
  rewrite lstrip_digits, rev_involutive; [reflexivity|].
  rewrite forallb_forall in *. intros c Hc. apply H. now apply in_rev.
Qed.

Lemma scan_digits (l : list ascii) :
  forallb is_digit l = true ->
  forall acc n,
    scan ADigit acc n l =
    Some (fold_left (fun a c => 10 * a + match digit c with Some d => d | None => 0 end)
                    l acc,
          n + Z.of_nat (List.length l)).
Proof.
  induction l as [|c l IH]; intros H acc n; simpl.
  - now rewrite Z.add_0_r.
  - simpl in H. apply andb_true_iff in H. destruct H as [Hc Hl].
    destruct (digit_not_sign _ Hc) as (_ & _ & ->).
    unfold is_digit in Hc. destruct (digit c) as [d|]; [|discriminate].
    rewrite (IH Hl). f_equal. f_equal. lia.
Qed.

(** [int] reads a numeral of at most [max_str_digits] digits as the number
    it writes. *)
Lemma int_numeral (s : string) :
  numeral s = true ->
  Z.of_nat (String.length s) <= max_str_digits ->
  int s = Return (numeral_value s).
Proof.
  unfold numeral, numeral_value, int. intros H Hlen.
  apply andb_true_iff in H. destruct H as [Hne Hd].
  rewrite (strip_digits _ Hd).
  assert (List.length (chars s) = String.length s) as Hl.
  { clear. induction s; simpl; congruence. }
  destruct s as [|c s]; [discriminate|]. cbn [chars list_ascii_of_string] in *.
  pose proof Hd as Hd'. cbn [forallb] in Hd'.
  apply andb_true_iff in Hd'. destruct Hd' as [Hc Hrest].
  destruct (digit_not_sign _ Hc) as (-> & -> & Hu).
  cbn [scan fold_left]. rewrite Hu.
  unfold is_digit in Hc. destruct (digit c) as [d|] eqn:Dg; [|discriminate].
  rewrite (scan_digits _ Hrest).
  cbn [List.length] in Hl.
  replace (max_str_digits <? 0 + 1 + Z.of_nat (List.length (list_ascii_of_string s)))
    with false; [reflexivity|].
  symmetry. apply Z.ltb_ge. unfold chars in Hl. lia.
Qed.

End Int.

(** * Properties of the parser *)

Section ParserFacts.

Context {D : Durations}.

Lemma unit_duration_multiplier (unit : ascii) (d : Z) :
  unit_duration unit = Some d -> multiplier unit = Some d.
Proof. each_letter unit; trivial. Qed.

Lemma no_arm_multiplier (unit : ascii) :
  has_arm unit = false -> multiplier unit = None.
Proof. each_letter unit. Qed.


Lemma arm_not_slash (unit : ascii) :
  multiplier unit <> None -> unit <> "/"%char.
Proof. intros H ->. now apply H. Qed.

Lemma multiplier_positive (unit : ascii) (m : Z) :
  multiplier unit = Some m -> 0 < m.
Proof.
  pose proof durations_positive as (Hs & Hm & Hh & Hd & Hw).
  each_letter unit; intros H; injection H as <-; trivial; lia.
Qed.

Lemma Rate_init_accepts (l i : Z) :
  0 < l -> 0 < i -> Rate_init l i = Return (mkRate l i).
Proof. intros Hl Hi. unfold Rate_init. now rewrite Rate_accepts. Qed.


(** A call of [Rate] returns the record of its arguments, if it returns. *)
Lemma Rate_init_returns (l i : Z) (rate : Rate) :
  Rate_init l i = Return rate -> rate = mkRate l i.
Proof.
  unfold Rate_init. destruct (Rate_raises l i); [discriminate|].
  intros H. now injection H.
Qed.

(** [parse_limit] with the six arms of the [match] folded into
    [multiplier]. *)
Lemma parse_limit_arms (rates : list Rate) (limit : string) :
  parse_limit rates limit =
  match split "/" limit with
  | [reqs; interval] =>
      count <- (if String.eqb (drop_last interval) "" then Return 1
                else int (drop_last interval)) ;;
      unit <- last_char interval ;;
      match multiplier unit with
      | Some m =>
          r <- int reqs ;; rate <- Rate_init r (count * m) ;;
          Return (rates ++ [rate])%list
      | None => Return rates
      end
  | _ => Raise ValueError
  end.
Proof.
  unfold parse_limit.
  destruct (split "/" limit) as [|reqs [|interval [|]]]; try reflexivity.
  destruct (if String.eqb (drop_last interval) "" then Return 1
            else int (drop_last interval)) as [count|e]; [|reflexivity].
  destruct (last_char interval) as [unit|e]; [|reflexivity].
  cbn [bind]. each_letter unit.
Qed.

(** Unpacking [limit.split("/")] into two names fails unless [limit] has
    exactly one ["/"]. *)
Lemma parse_limit_unpack (rates : list Rate) (limit : string) :
  count_char "/" limit <> 1%nat -> parse_limit rates limit = Raise ValueError.
Proof.
  intros H. rewrite parse_limit_arms.
  pose proof (length_split "/" limit) as Hl.
  destruct (split "/" limit) as [|reqs [|interval [|]]]; try reflexivity.
  simpl in Hl. congruence.
Qed.

(** A descriptor with one ["/"], cut into count, number and unit. *)
Lemma parse_limit_descriptor (rates : list Rate) (reqs number : string) (unit : ascii) :
  count_char "/" reqs = 0%nat -> count_char "/" number = 0%nat -> unit <> "/"%char ->
  parse_limit rates (reqs ++ "/" ++ number ++ String unit "") =
  (count <- (if String.eqb number "" then Return 1 else int number) ;;
   match multiplier unit with
   | Some m =>
       r <- int reqs ;; rate <- Rate_init r (count * m) ;;
       Return (rates ++ [rate])%list
   | None => Return rates
   end).
Proof.
  intros Hr Hn Hu. rewrite parse_limit_arms.
  change (reqs ++ "/" ++ number ++ String unit "")
    with (reqs ++ String "/" (number ++ String unit "")).
  rewrite (split_app _ _ _ Hr), split_without.
  - now rewrite drop_last_app, last_char_app.
  - rewrite count_char_app, Hn. simpl.
    destruct (Ascii.eqb_spec unit "/"); [contradiction|reflexivity].
Qed.

Lemma int_no_slash (s : string) (v : Z) :
  int s = Return v -> count_char "/" s = 0%nat.
Proof. intros H. now apply (int_without s v _ H). Qed.

(** The tier of a descriptor whose count and number [int] reads as positive
    numbers and whose letter has an arm. *)
Lemma parse_limit_tier (rates : list Rate) (reqs number : string) (unit : ascii)
    (n k m : Z) :
  int reqs = Return n -> 0 < n -> int number = Return k -> 0 < k ->
  multiplier unit = Some m ->
  parse_limit rates (reqs ++ "/" ++ number ++ String unit "") =
  Return (rates ++ [mkRate n (k * m)])%list.
Proof.
  intros Hn Hnpos Hk Hkpos Hm.
  pose proof (multiplier_positive _ _ Hm) as Hmpos.
  rewrite parse_limit_descriptor;
    eauto using int_no_slash, arm_not_slash.
  - destruct (String.eqb_spec number "") as [->|_]; [discriminate Hk|].
    rewrite Hk, Hm. cbn [bind]. rewrite Hn. cbn [bind].
    rewrite Rate_init_accepts by nia. reflexivity.
  - apply arm_not_slash. congruence.
Qed.

(** The same with no number: the count of units is 1. *)
Lemma parse_limit_tier_default (rates : list Rate) (reqs : string) (unit : ascii)
    (n m : Z) :
  int reqs = Return n -> 0 < n -> multiplier unit = Some m ->
  parse_limit rates (reqs ++ "/" ++ String unit "") =
  Return (rates ++ [mkRate n (1 * m)])%list.
Proof.
  intros Hn Hnpos Hm.
  pose proof (multiplier_positive _ _ Hm) as Hmpos.
  change (reqs ++ "/" ++ String unit "") with (reqs ++ "/" ++ "" ++ String unit "").
  rewrite parse_limit_descriptor; eauto using int_no_slash.
  - rewrite Hm. cbn [bind String.eqb]. rewrite Hn. cbn [bind].
    rewrite Rate_init_accepts by lia. reflexivity.
  - apply arm_not_slash. congruence.
Qed.

(** A descriptor with an unmatched letter, one ["/"], and a number that is
    empty or that [int] accepts, is passed over: no exception, no tier, and
    the count is not evaluated. *)
Lemma unmatched_letter_dropped (rates : list Rate) (reqs number : string)
    (unit : ascii) :
  has_arm unit = false -> unit <> "/"%char ->
  count_char "/" reqs = 0%nat ->
  number = "" \/ (exists k, int number = Return k) ->
  parse_limit rates (reqs ++ "/" ++ number ++ String unit "") = Return rates.
Proof.
  intros Harm Hu Hr Hnum.
  rewrite parse_limit_descriptor; trivial.
  - rewrite (no_arm_multiplier _ Harm).
    destruct Hnum as [->|[k Hk]]; [reflexivity|].
    destruct (String.eqb number ""); [reflexivity|now rewrite Hk].
  - destruct Hnum as [->|[k Hk]]; [reflexivity|]. now apply (int_no_slash _ k).
Qed.



(** A definition written with [":"] between two descriptors or more, each
    with one ["/"] and no [","], is read as a single descriptor, and
    unpacking its pieces raises [ValueError]. *)
Lemma count_join_other (c sep : ascii) (pieces : list string) :
  Ascii.eqb sep c = false ->
  Forall (fun p => count_char c p = 0%nat) pieces ->
  count_char c (join sep pieces) = 0%nat.
Proof.
  intros Hsep. induction 1 as [|p rest Hp Hrest IH]; [reflexivity|].
  cbn [join]. destruct rest as [|q rest]; [exact Hp|].
  rewrite count_char_app, Hp. cbn [count_char]. now rewrite Hsep, IH.
Qed.

Lemma count_join_one (c sep : ascii) (pieces : list string) :
  Ascii.eqb sep c = false ->
  Forall (fun p => count_char c p = 1%nat) pieces ->
  count_char c (join sep pieces) = List.length pieces.
Proof.
  intros Hsep. induction 1 as [|p rest Hp Hrest IH]; [reflexivity|].
  cbn [join]. destruct rest as [|q rest]; [exact Hp|].
  rewrite count_char_app, Hp. cbn [count_char]. now rewrite Hsep, IH.
Qed.

Lemma colon_separated_raises (descriptors : list string) :
  (2 <= List.length descriptors)%nat ->
  Forall (fun d => count_char "/" d = 1%nat) descriptors ->
  Forall (fun d => count_char "," d = 0%nat) descriptors ->
  parse_rates (join ":" descriptors) = Raise ValueError.
Proof.
  intros Hlen Hslash Hcomma. unfold parse_rates.
  rewrite split_without by now apply count_join_other.
  cbn [parse_limits]. rewrite parse_limit_unpack; [reflexivity|].
  rewrite count_join_one by trivial. lia.
Qed.

(** A definition with no [","] is one descriptor. *)
Lemma parse_rates_single (value : string) :
  count_char "," value = 0%nat ->
  parse_rates value = parse_limit [] value.
Proof.
  intros H. unfold parse_rates. rewrite (split_without _ _ H).
  cbn [parse_limits]. now destruct (parse_limit [] value).
Qed.

(** Count and number written as numerals of positive numbers: the tier has
    the numbers they write. *)
Lemma parse_limit_numerals (rates : list Rate) (reqs number : string)
    (unit : ascii) (m : Z) :
  numeral reqs = true -> Z.of_nat (String.length reqs) <= max_str_digits ->
  0 < numeral_value reqs ->
  numeral number = true -> Z.of_nat (String.length number) <= max_str_digits ->
  0 < numeral_value number ->
  multiplier unit = Some m ->
  parse_limit rates (reqs ++ "/" ++ number ++ String unit "") =
  Return (rates ++ [mkRate (numeral_value reqs) (numeral_value number * m)])%list.
Proof.
  intros Hr Hlr Hrpos Hn Hln Hnpos Hm.
  apply parse_limit_tier; trivial; now apply int_numeral.
Qed.

End ParserFacts.

(** * Properties of the registry and of the tools *)

Section Dicts.

Context {V : Type}.

Lemma getitem_setitem_same (d : dict V) (k : string) (v : V) :
  getitem (setitem d k v) k = Return v.
Proof.
  induction d as [|[k' v'] d IH]; simpl.
  - now rewrite String.eqb_refl.
  - destruct (String.eqb k' k) eqn:E; simpl.
    + now rewrite String.eqb_refl.
    + now rewrite E.
Qed.

Lemma getitem_setitem_other (d : dict V) (k k' : string) (v : V) :
  k <> k' -> getitem (setitem d k v) k' = getitem d k'.
Proof.
  intros Hne. induction d as [|[k0 v0] d IH]; simpl.
  - destruct (String.eqb_spec k k'); [contradiction|reflexivity].
  - destruct (String.eqb_spec k0 k) as [->|]; simpl.
    + destruct (String.eqb_spec k k'); [contradiction|reflexivity].
    + now rewrite IH.
Qed.


Lemma getitem_missing (d : dict V) (k : string) :
  ~ In k (keys d) -> getitem d k = Raise KeyError.
Proof.
  induction d as [|[k0 v0] d IH]; simpl; [reflexivity|].
  intros H. destruct (String.eqb_spec k0 k); [tauto|].
  apply IH. tauto.
Qed.

Lemma getitem_present (d : dict V) (k : string) :
  In k (keys d) -> exists v, getitem d k = Return v.
Proof.
  induction d as [|[k0 v0] d IH]; simpl; [contradiction|].
  destruct (String.eqb_spec k0 k); [now exists v0|].
  intros [H|H]; [contradiction|auto].
Qed.

End Dicts.

Lemma last_map_Some (ks : list string) (k : string) :
  last (map Some ks) None <> None -> last (map Some ks) None = Some (last ks k).
Proof.
  induction ks as [|a ks IH]; simpl; [congruence|].
  destruct ks as [|b ks]; simpl in *; [reflexivity|].
  exact IH.
Qed.

Lemma last_shift {A : Type} (l : list A) (a d : A) :
  last (a :: l) d = last l a.
Proof.
  revert a d. induction l as [|b l IH]; intros a d; [reflexivity|].
  change (last (a :: b :: l) d) with (last (b :: l) d).
  now rewrite !IH.
Qed.

Lemma nth_error_update {A : Type} (l : list A) (i : nat) (a : A) :
  (i < List.length l)%nat -> nth_error (update l i a) i = Some a.
Proof.
  revert i. induction l as [|x l IH]; intros [|i]; simpl; try lia; [reflexivity|].
  intros H. apply IH. lia.
Qed.

Lemma length_update {A : Type} (l : list A) (i : nat) (a : A) :
  List.length (update l i a) = List.length l.
Proof.
  revert i. induction l as [|x l IH]; intros [|i]; simpl; auto.
Qed.

Section ServerFacts.

Context {D : Durations} {L : Library}.

(** What one iteration of [init_buckets] does to [LIMITERS]: nothing, or it
    binds the name that follows the prefix in [key]; nothing when it
    raises. *)
Lemma init_bucket_effect (bucket_prefix key value : string) (w : world) :
  match init_bucket bucket_prefix key value w with
  | (Return _, w') =>
      LIMITERS w' = LIMITERS w \/
      exists bucket_name limiter,
        key = bucket_prefix ++ bucket_name /\
        LIMITERS w' = setitem (LIMITERS w) bucket_name limiter
  | (Raise _, w') => LIMITERS w' = LIMITERS w
  end.
Proof.
  unfold init_bucket, startswith, removeprefix.
  destruct (strip_prefix bucket_prefix key) as [bucket_name|] eqn:E;
    [|now left].
  apply strip_prefix_inv in E.
  unfold bindM, eval, call, LIMITERS_setitem.
  destruct (parse_rates value) as [rates|e]; [|reflexivity].
  destruct (RedisBucket_init rates bucket_name (store w)) as [[bucket|e] s];
    cbn; [|reflexivity].
  destruct (Limiter_new bucket s) as [[limiter|e] s']; cbn; [|reflexivity].
  right. now exists bucket_name, limiter.
Qed.

(** [init_buckets] does not look at the rates it has parsed: whatever the
    list, it goes to [RedisBucket.init] as it is, and the bucket is
    registered when the two library calls return. *)
Lemma init_bucket_delegates (bucket_prefix bucket_name value : string)
    (rates : list Rate) (w : world) :
  parse_rates value = Return rates ->
  init_bucket bucket_prefix (bucket_prefix ++ bucket_name) value w =
  (bucket <-- call (RedisBucket_init rates bucket_name) ;;
   limiter <-- call (Limiter_new bucket) ;;
   LIMITERS_setitem bucket_name limiter) w.
Proof.
  intros H. unfold init_bucket, startswith, removeprefix.
  rewrite strip_prefix_app. unfold bindM at 1, eval. now rewrite H.
Qed.


(** [rate_limit] and [inner] call the library and do nothing else to the
    state. *)
Lemma call_LIMITERS {A : Type} (f : Store -> result A * Store) (w : world) :
  LIMITERS (snd (call f w)) = LIMITERS w.
Proof. unfold call. now destruct (f (store w)). Qed.

Lemma rate_limit_LIMITERS (bucket : string) (blocking : bool) (item : string)
    (w : world) :
  LIMITERS (snd (rate_limit bucket blocking item w)) = LIMITERS w.
Proof.
  unfold rate_limit, bindM, LIMITERS_getitem.
  destruct (getitem (LIMITERS w) bucket); [apply call_LIMITERS|reflexivity].
Qed.

Lemma inner_LIMITERS (frame : nat) (blocking : bool) (item : string) (w : world) :
  LIMITERS (snd (inner frame blocking item w)) = LIMITERS w.
Proof.
  unfold inner, bindM, load_key, LIMITERS_getitem.
  destruct (nth_error (cells w) frame) as [[key|]|]; try reflexivity.
  destruct (getitem (LIMITERS w) key); [apply call_LIMITERS|reflexivity].
Qed.

Lemma call_tool_LIMITERS (tool_name : string) (blocking : bool) (item : string)
    (w : world) :
  LIMITERS (snd (call_tool tool_name blocking item w)) = LIMITERS w.
Proof.
  unfold call_tool.
  destruct (getitem (tools w) tool_name) as [[[|frame] nm descr]|];
    try reflexivity.
  apply inner_LIMITERS.
Qed.

Lemma bound_in_setitem (frame : nat) (ts : dict Tool) (nm nm' descr : string) :
  bound_in frame ts nm ->
  bound_in frame (setitem ts nm' (mkTool (inner_of frame) nm' descr)) nm.
Proof.
  intros [t [Ht Hf]]. destruct (String.eqb_spec nm' nm) as [->|Hne].
  - eexists. split; [apply getitem_setitem_same|reflexivity].
  - exists t. split; [|exact Hf]. now rewrite getitem_setitem_other.
Qed.

(** The loop of [init_tools]: it always ends normally; [LIMITERS] and the
    store are as before; the cell of the frame holds the key of the last
    iteration; every name registered is bound to a function of the frame. *)
Lemma register_tools (frame : nat) (registered : list string) :
  forall (w : world) (x : option string),
    nth_error (cells w) frame = Some x ->
    exists w',
      for_each registered (register_tool frame) w = (Return tt, w') /\
      LIMITERS w' = LIMITERS w /\
      store w' = store w /\
      nth_error (cells w') frame = Some (last (map Some registered) x) /\
      (forall nm, bound_in frame (tools w) nm -> bound_in frame (tools w') nm) /\
      (forall key, In key registered -> bound_in frame (tools w') ("limit-" ++ key)).
Proof.
  induction registered as [|key rest IH]; intros w x Hx.
  - exists w. cbn. repeat split; auto. contradiction.
  - cbn [for_each]. unfold bindM at 1.
    unfold register_tool, bindM, assign_key, mcp_tool. cbn [name].
    set (w1 := mkWorld _ _ _ _).
    assert (nth_error (cells w1) frame = Some (Some key)) as H1.
    { cbn. apply nth_error_update. apply nth_error_Some. congruence. }
    destruct (IH w1 (Some key) H1) as (w' & Hrun & HL & Hs & Hc & Hold & Hnew).
    exists w'. split; [exact Hrun|]. repeat split.
    + now rewrite HL.
    + now rewrite Hs.
    + rewrite Hc. f_equal. cbn [map]. now rewrite last_shift.
    + intros nm Hb. apply Hold. cbn. now apply bound_in_setitem.
    + intros k [<-|Hk]; [|now apply Hnew].
      apply Hold. cbn. eexists. split; [apply getitem_setitem_same|reflexivity].
Qed.

(** After [init_tools], every generated tool does what [rate_limit] does for
    the last key of [LIMITERS]: the closures share the variable [key], and
    the loop left the last key in it. *)
Lemma generated_tools_share_key (w : world) (key : string) (blocking : bool)
    (item : string) :
  In key (keys (LIMITERS w)) ->
  exists w1,
    init_tools w = (Return tt, w1) /\
    LIMITERS w1 = LIMITERS w /\
    call_tool ("limit-" ++ key) blocking item w1 =
    rate_limit (last (keys (LIMITERS w)) "") blocking item w1.
Proof.
  intros Hin. unfold init_tools, bindM at 1, new_frame.
  set (w0 := mkWorld _ _ _ _). unfold bindM at 1. cbn [LIMITERS w0].
  assert (nth_error (cells w0) (List.length (cells w)) = Some None) as H0.
  { cbn. rewrite nth_error_app2 by lia. now rewrite Nat.sub_diag. }
  destruct (register_tools (List.length (cells w)) (keys (LIMITERS w)) w0 None H0)
    as (w1 & Hrun & HL & _ & Hc & _ & Hnew).
  exists w1. split; [exact Hrun|]. split; [exact HL|].
  destruct (Hnew key Hin) as [[f nm descr] [Ht Hf]]. cbn in Hf. subst f.
  unfold call_tool. rewrite Ht. cbn [fn].
  unfold inner, rate_limit, bindM at 1, load_key. rewrite Hc.
  rewrite (last_map_Some _ "").
  - reflexivity.
  - destruct (keys (LIMITERS w)) as [|k ks]; [contradiction|].
    cbn [map]. rewrite last_shift.
    clear. revert k. induction ks as [|a ks IH]; intros k; [discriminate|].
    cbn [map]. rewrite last_shift. apply IH.
Qed.

End ServerFacts.

(** * The module on the examples of its docstring *)

(** [BUCKET_bar=1/s:100/10m:1000/d], written with [","]. *)
Example bucket_bar {D : Durations} :
  parse_rates "1/s,100/10m,1000/d" =
  Return [mkRate 1 (1 * SECOND); mkRate 100 (10 * MINUTE); mkRate 1000 (1 * DAY)].
Proof.
  unfold parse_rates.
  change (split "," "1/s,100/10m,1000/d") with ["1/s"; "100/10m"; "1000/d"].
  cbn [parse_limits].
  rewrite (parse_limit_tier_default [] "1" "s" 1 SECOND eq_refl eq_refl eq_refl
           : parse_limit [] "1/s" = Return [mkRate 1 (1 * SECOND)]).
  cbn [bind].
  rewrite (parse_limit_tier _ "100" "10" "m" 100 10 MINUTE
             eq_refl eq_refl eq_refl eq_refl eq_refl
           : parse_limit _ "100/10m" = Return (_ ++ [mkRate 100 (10 * MINUTE)])%list).
  cbn [bind].
  rewrite (parse_limit_tier_default _ "1000" "d" 1000 DAY eq_refl eq_refl eq_refl
           : parse_limit _ "1000/d" = Return (_ ++ [mkRate 1000 (1 * DAY)])%list).
  reflexivity.
Qed.

(** Two buckets in the environment, then the tool of the first one: the
    permit is taken from the second. *)
Example limit_a_run :
  let w := snd (@main milliseconds granting "BUCKET_"
                  [("HOME", "/root"); ("BUCKET_a", "1/s"); ("BUCKET_b", "2/s,10/m")]
                  (@start granting [])) in
  keys (LIMITERS w) = ["a"; "b"] /\
  keys (tools w) = ["rate-limit"; "limit-a"; "limit-b"] /\
  store (snd (@call_tool granting "limit-a" false "x" w)) = [("b", "x")] /\
  store (snd (@rate_limit granting "a" false "x" w)) = [("a", "x")].
Proof. repeat split. Qed.

(** * The claims *)

(** C1 (the code differs).  With two buckets [a] and [b] registered, in this
    order, the tool [limit-a] that [init_tools] generates calls
    [try_acquire] on the limiter of [b]: the closure reads [key] when it
    runs, and by then the loop has left the last key in it. *)
Theorem limit_a_acquires_from_last_bucket {L : Library}
    (la lb : Limiter) (s : Store) (blocking : bool) (item : string) :
  let w1 := snd (init_tools (mkWorld [("a", la); ("b", lb)] [] [] s)) in
  call_tool "limit-a" blocking item w1 = call (try_acquire lb item blocking) w1.
Proof. reflexivity. Qed.

(** C2 (the code differs).  The example of the module's docstring,
    [2/5s:15/m:100/4h], does not parse: only [","] separates descriptors,
    so the whole text is one descriptor with three ["/"] and unpacking its
    pieces raises [ValueError].  With [","] in place of [":"] the same
    descriptors give one tier each. *)
Theorem docstring_example_raises {D : Durations} :
  parse_rates "2/5s:15/m:100/4h" = Raise ValueError /\
  parse_rates "2/5s,15/m,100/4h" =
  Return [mkRate 2 (5 * SECOND); mkRate 15 (1 * MINUTE); mkRate 100 (4 * HOUR)].
Proof.
  split; [reflexivity|].
  unfold parse_rates.
  change (split "," "2/5s,15/m,100/4h") with ["2/5s"; "15/m"; "100/4h"].
  cbn [parse_limits].
  rewrite (parse_limit_tier [] "2" "5" "s" 2 5 SECOND
             eq_refl eq_refl eq_refl eq_refl eq_refl
           : parse_limit [] "2/5s" = Return [mkRate 2 (5 * SECOND)]).
  cbn [bind].
  rewrite (parse_limit_tier_default _ "15" "m" 15 MINUTE eq_refl eq_refl eq_refl
           : parse_limit _ "15/m" = Return (_ ++ [mkRate 15 (1 * MINUTE)])%list).
  cbn [bind].
  rewrite (parse_limit_tier _ "100" "4" "h" 100 4 HOUR
             eq_refl eq_refl eq_refl eq_refl eq_refl
           : parse_limit _ "100/4h" = Return (_ ++ [mkRate 100 (4 * HOUR)])%list).
  reflexivity.
Qed.

(** C4.  [rate_limit] on a bucket name that is not a key of [LIMITERS]
    raises [KeyError]: the caller gets an exception, not [False], and the
    library is not called. *)
Theorem rate_limit_unregistered {L : Library} (w : world) (bucket : string)
    (blocking : bool) (item : string) :
  ~ In bucket (keys (LIMITERS w)) ->
  rate_limit bucket blocking item w = (Raise KeyError, w).
Proof.
  intros H. unfold rate_limit, bindM, LIMITERS_getitem.
  now rewrite (getitem_missing _ _ H).
Qed.

(** C4 on a registry with the bucket [foo], asked for [bar]. *)
Lemma rate_limit_unregistered_witness :
  @rate_limit granting "bar" false "x"
    (@mkWorld granting [("foo", ([mkRate 1 1000], "foo"))] [] [] []) =
  (Raise KeyError, @mkWorld granting [("foo", ([mkRate 1 1000], "foo"))] [] [] []).
Proof.
  apply (@rate_limit_unregistered granting).
  simpl. intros [H|[]]. discriminate H.
Defined.

(** C5 (the code differs).  The descriptor [5/3x] ends with a letter that no
    arm of the [match] matches, and there is no default arm: parsing it
    raises nothing and leaves the rates as they were, so the definition
    [1/s,5/3x] gives the bucket of the single tier [1/s]. *)
Theorem unmatched_letter_is_passed_over {D : Durations} (rates : list Rate) :
  parse_limit rates "5/3x" = Return rates /\
  parse_rates "1/s,5/3x" = Return [mkRate 1 (1 * SECOND)].
Proof.
  split; [reflexivity|].
  unfold parse_rates.
  change (split "," "1/s,5/3x") with ["1/s"; "5/3x"].
  cbn [parse_limits].
  rewrite (parse_limit_tier_default [] "1" "s" 1 SECOND eq_refl eq_refl eq_refl
           : parse_limit [] "1/s" = Return [mkRate 1 (1 * SECOND)]).
  reflexivity.
Qed.




(** C8.  For a descriptor made of a count, a number and one of the letters
    [s], [m], [h], [d], [w], count and number being positive integers as
    [int] reads them, the interval of the tier is the number times the
    duration of the unit; with no number it is once that duration. *)
Theorem interval_is_number_times_duration {D : Durations}
    (rates : list Rate) (reqs : string) (unit : ascii) (n d : Z) :
  int reqs = Return n -> 0 < n -> unit_duration unit = Some d ->
  parse_limit rates (reqs ++ "/" ++ String unit "") =
    Return (rates ++ [mkRate n (1 * d)])%list /\
  forall (number : string) (k : Z),
    int number = Return k -> 0 < k ->
    parse_limit rates (reqs ++ "/" ++ number ++ String unit "") =
      Return (rates ++ [mkRate n (k * d)])%list.
Proof.
  intros Hn Hnpos Hd. apply unit_duration_multiplier in Hd. split.
  - now apply parse_limit_tier_default.
  - intros number k Hk Hkpos. now apply parse_limit_tier.
Qed.

(** C8 on the descriptors [1/s] and [100/4h]. *)
Lemma interval_is_number_times_duration_witness :
  @parse_limit milliseconds [] "1/s" = Return [mkRate 1 (1 * 1000)] /\
  @parse_limit milliseconds [] "100/4h" = Return [mkRate 100 (4 * 3600000)].
Proof.
  split.
  - refine (proj1 (@interval_is_number_times_duration milliseconds
                     [] "1" "s"%char 1 1000 _ _ _));
      [reflexivity | lia | reflexivity].
  - refine (proj2 (@interval_is_number_times_duration milliseconds
                     [] "100" "h"%char 100 3600000 _ _ _) "4" 4 _ _);
      [reflexivity | lia | reflexivity | reflexivity | lia].
Defined.

(** C9.  Serving tool invocations, of [rate-limit] or of the generated
    tools, in any number and with any outcome, leaves [LIMITERS] as it
    was. *)
Theorem serve_leaves_LIMITERS {L : Library} (invocations : list invocation)
    (w : world) :
  LIMITERS (serve invocations w) = LIMITERS w.
Proof.
  revert w. induction invocations as [|i rest IH]; intros w; [reflexivity|].
  cbn [serve]. rewrite IH.
  destruct i; [apply rate_limit_LIMITERS|apply call_tool_LIMITERS].
Qed.

(** C10.  A descriptor whose letter is [c], with count and number positive
    integers as [int] reads them, parses: the tier appended has the interval
    10 times the number, and 10 with no number. *)
Theorem letter_c_is_ten_per_count {D : Durations}
    (rates : list Rate) (reqs : string) (n : Z) :
  int reqs = Return n -> 0 < n ->
  parse_limit rates (reqs ++ "/" ++ "c") =
    Return (rates ++ [mkRate n (1 * 10)])%list /\
  forall (number : string) (k : Z),
    int number = Return k -> 0 < k ->
    parse_limit rates (reqs ++ "/" ++ number ++ "c") =
      Return (rates ++ [mkRate n (k * 10)])%list.
Proof.
  intros Hn Hnpos. split.
  - now apply parse_limit_tier_default.
  - intros number k Hk Hkpos. now apply parse_limit_tier.
Qed.

(** C10 on the descriptors [5/c] and [5/3c]. *)
Lemma letter_c_is_ten_per_count_witness :
  @parse_limit milliseconds [] "5/c" = Return [mkRate 5 (1 * 10)] /\
  @parse_limit milliseconds [] "5/3c" = Return [mkRate 5 (3 * 10)].
Proof.
  split.
  - refine (proj1 (@letter_c_is_ten_per_count milliseconds [] "5" 5 _ _));
      [reflexivity | lia].
  - refine (proj2 (@letter_c_is_ten_per_count milliseconds [] "5" 5 _ _) "3" 3 _ _);
      [reflexivity | lia | reflexivity | lia].
Defined.

(** * Further properties of the module *)

Section Loops.

Context {D : Durations} {L : Library}.

Lemma for_each_app {A : Type} (xs ys : list A) (body : A -> M unit) (w : world) :
  for_each (xs ++ ys)%list body w =
  bindM (for_each xs body) (fun _ => for_each ys body) w.
Proof.
  revert w. induction xs as [|x xs IH]; intros w; cbn [for_each app].
  - reflexivity.
  - unfold bindM in *. destruct (body x w) as [[[]|e] w1]; [|reflexivity].
    apply IH.
Qed.

Lemma init_bucket_unprefixed (bucket_prefix key value : string) (w : world) :
  startswith key bucket_prefix = false ->
  init_bucket bucket_prefix key value w = (Return tt, w).
Proof. intros H. unfold init_bucket. now rewrite H. Qed.

(** What a normal end of one iteration of [init_buckets] on a prefixed
    variable means. *)
Lemma init_bucket_success (bucket_prefix key value : string) (w w' : world) :
  startswith key bucket_prefix = true ->
  init_bucket bucket_prefix key value w = (Return tt, w') ->
  exists rates bucket limiter s,
    parse_rates value = Return rates /\
    RedisBucket_init rates (removeprefix key bucket_prefix) (store w) = (Return bucket, s) /\
    Limiter_new bucket s = (Return limiter, store w') /\
    LIMITERS w' = setitem (LIMITERS w) (removeprefix key bucket_prefix) limiter /\
    cells w' = cells w /\ tools w' = tools w.
Proof.
  intros Hp. unfold init_bucket. rewrite Hp.
  unfold bindM, eval, call, LIMITERS_setitem.
  destruct (parse_rates value) as [rates|e]; [|discriminate].
  destruct (RedisBucket_init rates (removeprefix key bucket_prefix) (store w))
    as [[bucket|e] s] eqn:Eb; cbn; [|discriminate].
  destruct (Limiter_new bucket s) as [[limiter|e] s'] eqn:El; cbn; [|discriminate].
  intros H. injection H as <-. cbn.
  exists rates, bucket, limiter, s. repeat split; trivial.
Qed.

Lemma keys_setitem_fresh {V : Type} (d : dict V) (k : string) (v : V) :
  ~ In k (keys d) -> keys (setitem d k v) = (keys d ++ [k])%list.
Proof.
  induction d as [|[k0 v0] d IH]; simpl; [reflexivity|].
  intros H. destruct (String.eqb_spec k0 k); [tauto|].
  simpl. f_equal. apply IH. tauto.
Qed.

Lemma prefixed_key (bucket_prefix key : string) :
  startswith key bucket_prefix = true ->
  key = bucket_prefix ++ removeprefix key bucket_prefix.
Proof.
  unfold startswith, removeprefix.
  destruct (strip_prefix bucket_prefix key) as [r|] eqn:E; [|discriminate].
  intros _. now apply strip_prefix_inv.
Qed.

Lemma in_bucket_names (bucket_prefix n : string) (environ : list (string * string)) :
  In n (bucket_names bucket_prefix environ) ->
  exists value, In (bucket_prefix ++ n, value) environ.
Proof.
  unfold bucket_names. rewrite in_map_iff.
  intros [[key value] [Hn Hin]]. apply filter_In in Hin. destruct Hin as [Hin Hp].
  cbn in Hn, Hp. exists value. subst n. now rewrite <- prefixed_key.
Qed.

(** Iterations on other variables leave the binding of a bucket name as it
    is, however they end. *)
Lemma init_buckets_other (bucket_prefix bucket_name : string)
    (environ : list (string * string)) :
  (forall kv, In kv environ -> fst kv <> bucket_prefix ++ bucket_name) ->
  forall w r w',
    init_buckets bucket_prefix environ w = (r, w') ->
    getitem (LIMITERS w') bucket_name = getitem (LIMITERS w) bucket_name.
Proof.
  unfold init_buckets.
  induction environ as [|[key value] environ IH]; intros Hne w r w'.
  - cbn. intros H. now injection H as _ <-.
  - cbn [for_each]. unfold bindM at 1.
    pose proof (init_bucket_effect bucket_prefix key value w) as Heff.
    destruct (init_bucket bucket_prefix key value w) as [[[]|e] w1].
    + intros H. rewrite (IH (fun kv Hkv => Hne kv (or_intror Hkv)) _ _ _ H).
      destruct Heff as [->|(n & limiter & Hk & ->)]; [reflexivity|].
      apply getitem_setitem_other. intros ->.
      now apply (Hne (key, value) (or_introl eq_refl)).
    + intros H. injection H as _ <-. now rewrite Heff.
Qed.

(** The keys of [LIMITERS] after a normal end of [init_buckets]. *)
Lemma init_buckets_keys (bucket_prefix : string) (environ : list (string * string)) :
  NoDup (map fst environ) ->
  forall w w',
    (forall n, In n (bucket_names bucket_prefix environ) -> ~ In n (keys (LIMITERS w))) ->
    init_buckets bucket_prefix environ w = (Return tt, w') ->
    keys (LIMITERS w') = (keys (LIMITERS w) ++ bucket_names bucket_prefix environ)%list.
Proof.
  unfold init_buckets.
  induction environ as [|[key value] environ IH]; intros Hnd w w' Hfresh.
  - cbn. intros H. injection H as <-. now rewrite app_nil_r.
  - inversion Hnd as [|? ? Hkey Hnd']; subst.
    cbn [for_each]. unfold bindM at 1.
    destruct (init_bucket bucket_prefix key value w) as [[[]|e] w1] eqn:E;
      [|discriminate].
    intros Hrun. unfold bucket_names in *. cbn [filter fst] in *.
    destruct (startswith key bucket_prefix) eqn:Hp.
    + destruct (init_bucket_success _ _ _ _ _ Hp E)
        as (rates & bucket & limiter & s & _ & _ & _ & HL & _).
      cbn [map fst] in *.
      assert (keys (LIMITERS w1) =
              (keys (LIMITERS w) ++ [removeprefix key bucket_prefix])%list) as Hk.
      { rewrite HL. apply keys_setitem_fresh. apply Hfresh. now left. }
      rewrite (IH Hnd' w1 w'); trivial.
      * rewrite Hk, <- app_assoc. reflexivity.
      * intros n Hn. rewrite Hk. intros Hin. apply in_app_or in Hin.
        destruct Hin as [Hin|[<-|[]]].
        -- apply (Hfresh n); [now right|assumption].
        -- apply Hkey. destruct (in_bucket_names _ _ _ Hn) as [v Hv].
           rewrite <- prefixed_key in Hv by assumption.
           change key with (fst (key, v)). now apply in_map.
    + rewrite (init_bucket_unprefixed _ _ _ _ Hp) in E. injection E as <-.
      now apply IH.
Qed.

(** [init_tools] ends normally and touches neither [LIMITERS] nor the
    store. *)
Lemma init_tools_returns (w : world) :
  exists w',
    init_tools w = (Return tt, w') /\ LIMITERS w' = LIMITERS w /\ store w' = store w.
Proof.
  unfold init_tools, bindM at 1, new_frame.
  set (w0 := mkWorld _ _ _ _). unfold bindM at 1. cbn [LIMITERS w0].
  assert (nth_error (cells w0) (List.length (cells w)) = Some None) as H0.
  { cbn. rewrite nth_error_app2 by lia. now rewrite Nat.sub_diag. }
  destruct (register_tools (List.length (cells w)) (keys (LIMITERS w)) w0 None H0)
    as (w1 & Hrun & HL & Hs & _).
  exists w1. auto.
Qed.

End Loops.

Section MoreParserFacts.

Context {D : Durations}.

Lemma split_join (sep : ascii) (pieces : list string) :
  pieces <> [] ->
  Forall (fun p => count_char sep p = 0%nat) pieces ->
  split sep (join sep pieces) = pieces.
Proof.
  intros Hne H. induction H as [|p rest Hp Hrest IH]; [contradiction|].
  cbn [join]. destruct rest as [|q rest]; [now apply split_without|].
  rewrite (split_app _ _ _ Hp). f_equal. apply IH. discriminate.
Qed.

Lemma parse_limits_tiers (limits : list string) (tiers : list Rate) :
  Forall2 (fun limit r => forall rates, parse_limit rates limit = Return (rates ++ [r])%list)
          limits tiers ->
  forall rates, parse_limits rates limits = Return (rates ++ tiers)%list.
Proof.
  induction 1 as [|limit r limits tiers Hr _ IH]; intros rates; cbn [parse_limits].
  - now rewrite app_nil_r.
  - rewrite Hr. cbn [bind]. rewrite IH, <- app_assoc. reflexivity.
Qed.

(** One iteration leaves the rates as they are or appends one. *)
Lemma parse_limit_extends (rates rates' : list Rate) (limit : string) :
  parse_limit rates limit = Return rates' ->
  rates' = rates \/ exists r, rates' = (rates ++ [r])%list.
Proof.
  rewrite parse_limit_arms.
  destruct (split "/" limit) as [|reqs [|interval [|]]]; try discriminate.
  destruct (if String.eqb (drop_last interval) "" then Return 1
            else int (drop_last interval)) as [count|e]; [|discriminate].
  destruct (last_char interval) as [unit|e]; [|discriminate].
  cbn [bind]. destruct (multiplier unit) as [m|].
  - destruct (int reqs) as [r|e]; [|discriminate].
    cbn [bind]. destruct (Rate_init r (count * m)) as [rate|e]; [|discriminate].
    cbn [bind]. intros H. injection H as <-. right. now eexists.
  - intros H. injection H as <-. now left.
Qed.

Lemma parse_limits_extends (limits : list string) :
  forall rates rates',
    parse_limits rates limits = Return rates' ->
    exists more,
      rates' = (rates ++ more)%list /\ (List.length more <= List.length limits)%nat.
Proof.
  induction limits as [|limit limits IH]; intros rates rates'; cbn [parse_limits].
  - intros H. injection H as <-. exists []. now rewrite app_nil_r.
  - destruct (parse_limit rates limit) as [rates1|e] eqn:E; [|discriminate].
    cbn [bind]. intros H. destruct (IH _ _ H) as (more & -> & Hlen).
    destruct (parse_limit_extends _ _ _ E) as [->|[r ->]].
    + exists more. split; [reflexivity|cbn; lia].
    + exists (r :: more). rewrite <- app_assoc. split; [reflexivity|cbn; lia].
Qed.

End MoreParserFacts.

Section MoreServerFacts.

Context {D : Durations} {L : Library}.

Lemma call_tools_cells {A : Type} (f : Store -> result A * Store) (w : world) :
  tools (snd (call f w)) = tools w /\ cells (snd (call f w)) = cells w.
Proof. unfold call. now destruct (f (store w)). Qed.

Lemma invoke_tools_cells (i : invocation) (w : world) :
  tools (snd (invoke i w)) = tools w /\ cells (snd (invoke i w)) = cells w.
Proof.
  destruct i as [bucket blocking item|tool_name blocking item]; cbn [invoke].
  - unfold rate_limit, bindM, LIMITERS_getitem.
    destruct (getitem (LIMITERS w) bucket); [apply call_tools_cells|now split].
  - unfold call_tool.
    destruct (getitem (tools w) tool_name) as [[[|frame] nm descr]|];
      try now split.
    cbn [fn]. unfold inner, bindM, load_key, LIMITERS_getitem.
    destruct (nth_error (cells w) frame) as [[key|]|]; try now split.
    destruct (getitem (LIMITERS w) key); [apply call_tools_cells|now split].
Qed.

Lemma append_inj (p a b : string) : p ++ a = p ++ b -> a = b.
Proof. apply app_inv_head. Qed.

(** The table of tools after the loop of [init_tools]. *)
Lemma register_tools_table (frame : nat) (registered : list string) :
  forall w w',
    for_each registered (register_tool frame) w = (Return tt, w') ->
    (forall key, In key registered ->
       getitem (tools w') ("limit-" ++ key) =
       Return (mkTool (inner_of frame) ("limit-" ++ key)
                      ("Acquire a permit for the bucket " ++ key))) /\
    (forall nm, (forall key, In key registered -> nm <> "limit-" ++ key) ->
       getitem (tools w') nm = getitem (tools w) nm).
Proof.
  induction registered as [|k rest IH]; intros w w'.
  - cbn. intros H. injection H as <-. split; [contradiction|reflexivity].
  - cbn [for_each]. unfold bindM at 1.
    unfold register_tool, bindM, assign_key, mcp_tool. cbn [name].
    set (w1 := mkWorld _ _ _ _). intros Hrun.
    destruct (IH w1 w' Hrun) as [Ha Hb]. split.
    + intros key Hin.
      destruct (in_dec string_dec key rest) as [Hrest|Hrest]; [now apply Ha|].
      destruct Hin as [<-|Hin]; [|contradiction].
      rewrite Hb.
      * cbn. apply getitem_setitem_same.
      * intros key Hkey Heq. apply append_inj in Heq. now subst.
    + intros nm Hnm. rewrite Hb.
      * cbn. apply getitem_setitem_other. intros <-. now apply (Hnm k); [left|].
      * intros key Hkey. apply Hnm. now right.
Qed.

End MoreServerFacts.

(** ** [init_buckets] *)

(** X1.  Variables whose name does not start with the prefix play no part:
    [init_buckets] does on the whole environment what it does on the
    prefixed variables alone, state and outcome. *)
Theorem init_buckets_skips_unprefixed {D : Durations} {L : Library}
    (bucket_prefix : string) (environ : list (string * string)) (w : world) :
  init_buckets bucket_prefix environ w =
  init_buckets bucket_prefix
    (filter (fun kv => startswith (fst kv) bucket_prefix) environ) w.
Proof.
  unfold init_buckets. revert w.
  induction environ as [|[key value] environ IH]; intros w; [reflexivity|].
  cbn [filter fst]. destruct (startswith key bucket_prefix) eqn:Hp.
  - cbn [for_each]. unfold bindM.
    destruct (init_bucket bucket_prefix key value w) as [[[]|e] w1]; [|reflexivity].
    apply IH.
  - cbn [for_each]. unfold bindM at 1.
    rewrite (init_bucket_unprefixed _ _ _ _ Hp). apply IH.
Qed.

(** X2.  When [init_buckets] ends normally on an empty [LIMITERS], the keys
    of [LIMITERS] are the names of the prefixed variables without the
    prefix, one each, in the order of the environment. *)
Theorem init_buckets_registers_in_order {D : Durations} {L : Library}
    (bucket_prefix : string) (environ : list (string * string)) (w w' : world) :
  NoDup (map fst environ) ->
  LIMITERS w = [] ->
  init_buckets bucket_prefix environ w = (Return tt, w') ->
  keys (LIMITERS w') = bucket_names bucket_prefix environ.
Proof.
  intros Hnd Hempty Hrun.
  rewrite (init_buckets_keys bucket_prefix environ Hnd w w'); trivial.
  - now rewrite Hempty.
  - intros n _. rewrite Hempty. intros [].
Qed.

(** X2 on an environment with [HOME], [BUCKET_a] and [BUCKET_b]. *)
Lemma init_buckets_registers_in_order_witness :
  keys (LIMITERS (snd (@init_buckets milliseconds granting "BUCKET_"
                         [("HOME", "/root"); ("BUCKET_a", "1/s"); ("BUCKET_b", "2/s,10/m")]
                         (@start granting [])))) =
  bucket_names "BUCKET_"
    [("HOME", "/root"); ("BUCKET_a", "1/s"); ("BUCKET_b", "2/s,10/m")].
Proof.
  apply (@init_buckets_registers_in_order milliseconds granting "BUCKET_"
           [("HOME", "/root"); ("BUCKET_a", "1/s"); ("BUCKET_b", "2/s,10/m")]
           (@start granting [])).
  - repeat constructor; simpl; intuition discriminate.
  - reflexivity.
  - reflexivity.
Defined.

(** X4.  An exception in the iteration of one variable ends [init_buckets]
    with that exception; the variables after it are not read, and
    [LIMITERS] keeps the buckets of the variables before it. *)
Theorem failure_keeps_earlier_buckets {D : Durations} {L : Library}
    (bucket_prefix key value : string) (before after : list (string * string))
    (w w1 w2 : world) (e : exn) :
  init_buckets bucket_prefix before w = (Return tt, w1) ->
  init_bucket bucket_prefix key value w1 = (Raise e, w2) ->
  init_buckets bucket_prefix (before ++ (key, value) :: after)%list w = (Raise e, w2) /\
  LIMITERS w2 = LIMITERS w1.
Proof.
  intros Hbefore Hfail. split.
  - unfold init_buckets in *. rewrite for_each_app. unfold bindM at 1.
    rewrite Hbefore. cbn [for_each]. unfold bindM. now rewrite Hfail.
  - pose proof (init_bucket_effect bucket_prefix key value w1) as Heff.
    now rewrite Hfail in Heff.
Qed.

(** X4 on [BUCKET_a=1/s], [BUCKET_b=oops], [BUCKET_c=1/s]. *)
Lemma failure_keeps_earlier_buckets_witness :
  @init_buckets milliseconds granting "BUCKET_"
    ([("BUCKET_a", "1/s")] ++ [("BUCKET_b", "oops"); ("BUCKET_c", "1/s")])%list
    (@start granting []) =
  (Raise ValueError,
   @mkWorld granting [("a", ([mkRate 1 1000], "a"))] []
     [("rate-limit", rate_limit_tool)] []) /\
  LIMITERS (@mkWorld granting [("a", ([mkRate 1 1000], "a"))] []
              [("rate-limit", rate_limit_tool)] []) =
  LIMITERS (@mkWorld granting [("a", ([mkRate 1 1000], "a"))] []
              [("rate-limit", rate_limit_tool)] []).
Proof.
  apply (@failure_keeps_earlier_buckets milliseconds granting
           "BUCKET_" "BUCKET_b" "oops" [("BUCKET_a", "1/s")] [("BUCKET_c", "1/s")]
           (@start granting [])
           (@mkWorld granting [("a", ([mkRate 1 1000], "a"))] []
              [("rate-limit", rate_limit_tool)] [])); reflexivity.
Defined.

(** X5.  After a normal end of [main], the bucket of every prefixed variable
    is bound in [LIMITERS] to a limiter that the library made, under the
    name without the prefix, from the rates parsed from the value of that
    variable; [rate_limit] on that name is the call of [try_acquire] on that
    limiter, with [item] and [blocking] as given. *)
Theorem configured_bucket_is_served {D : Durations} {L : Library}
    (bucket_prefix bucket_name value : string) (environ : list (string * string))
    (w w' : world) :
  NoDup (map fst environ) ->
  In (bucket_prefix ++ bucket_name, value) environ ->
  main bucket_prefix environ w = (Return tt, w') ->
  exists rates bucket limiter s0 s1 s2,
    parse_rates value = Return rates /\
    RedisBucket_init rates bucket_name s0 = (Return bucket, s1) /\
    Limiter_new bucket s1 = (Return limiter, s2) /\
    getitem (LIMITERS w') bucket_name = Return limiter /\
    forall blocking item,
      rate_limit bucket_name blocking item w' =
      call (try_acquire limiter item blocking) w'.
Proof.
  intros Hnd Hin Hmain.
  assert (exists w1, init_buckets bucket_prefix environ w = (Return tt, w1) /\
                     LIMITERS w' = LIMITERS w1) as (w1 & Hinit & HL).
  { unfold main, bindM in Hmain.
    destruct (init_buckets bucket_prefix environ w) as [[[]|e] w1]; [|discriminate].
    exists w1. split; [reflexivity|].
    destruct (init_tools_returns w1) as (w2 & H2 & HL2 & _).
    rewrite H2 in Hmain. injection Hmain as <-. exact HL2. }
  assert (exists rates bucket limiter s0 s1 s2,
    parse_rates value = Return rates /\
    RedisBucket_init rates bucket_name s0 = (Return bucket, s1) /\
    Limiter_new bucket s1 = (Return limiter, s2) /\
    getitem (LIMITERS w1) bucket_name = Return limiter) as Hfound.
  { clear Hmain HL. revert w Hinit. unfold init_buckets.
    induction environ as [|[key value'] environ IH]; [contradiction|].
    intros w. cbn [for_each]. unfold bindM at 1.
    inversion Hnd as [|? ? Hkey Hnd']; subst.
    destruct (init_bucket bucket_prefix key value' w) as [[[]|e] w0] eqn:E;
      [|discriminate].
    intros Hrest. destruct Hin as [Heq|Hin]; [|now apply (IH Hnd' Hin w0)].
    injection Heq as -> ->.
    assert (startswith (bucket_prefix ++ bucket_name) bucket_prefix = true) as Hp.
    { unfold startswith. now rewrite strip_prefix_app. }
    destruct (init_bucket_success _ _ _ _ _ Hp E)
      as (rates & bucket & limiter & s & Hr & Hb & Hl & HL0 & _).
    assert (removeprefix (bucket_prefix ++ bucket_name) bucket_prefix = bucket_name)
      as Hname.
    { unfold removeprefix. now rewrite strip_prefix_app. }
    rewrite Hname in *.
    exists rates, bucket, limiter, (store w), s, (store w0).
    repeat split; trivial.
    rewrite (init_buckets_other bucket_prefix bucket_name environ) with (w := w0)
      (r := Return tt) (w' := w1); [|  |exact Hrest].
    - rewrite HL0. apply getitem_setitem_same.
    - intros kv Hkv Heq. apply Hkey. rewrite <- Heq. now apply in_map. }
  destruct Hfound as (rates & bucket & limiter & s0 & s1 & s2 & Hr & Hb & Hl & Hg).
  exists rates, bucket, limiter, s0, s1, s2. repeat split; trivial.
  - now rewrite HL.
  - intros blocking item. unfold rate_limit, bindM, LIMITERS_getitem.
    now rewrite HL, Hg.
Qed.

(** X5 on the environment [BUCKET_a=1/s]. *)
Lemma configured_bucket_is_served_witness :
  exists rates bucket limiter s0 s1 s2,
    @parse_rates milliseconds "1/s" = Return rates /\
    @RedisBucket_init granting rates "a" s0 = (Return bucket, s1) /\
    @Limiter_new granting bucket s1 = (Return limiter, s2) /\
    getitem
      (LIMITERS (snd (@main milliseconds granting "BUCKET_" [("BUCKET_a", "1/s")]
                        (@start granting []))))
      "a" = Return limiter /\
    forall blocking item,
      @rate_limit granting "a" blocking item
        (snd (@main milliseconds granting "BUCKET_" [("BUCKET_a", "1/s")]
                (@start granting []))) =
      call (@try_acquire granting limiter item blocking)
        (snd (@main milliseconds granting "BUCKET_" [("BUCKET_a", "1/s")]
                (@start granting []))).
Proof.
  apply (@configured_bucket_is_served milliseconds granting "BUCKET_" "a" "1/s"
           [("BUCKET_a", "1/s")] (@start granting [])).
  - repeat constructor. simpl. intuition.
  - left. reflexivity.
  - reflexivity.
Defined.

(** X6.  [main] raises exactly when [init_buckets] does, with the same
    exception and the same state: [init_tools] adds no failure of its
    own. *)
Theorem main_fails_only_in_init_buckets {D : Durations} {L : Library}
    (bucket_prefix : string) (environ : list (string * string))
    (w w' : world) (e : exn) :
  main bucket_prefix environ w = (Raise e, w') <->
  init_buckets bucket_prefix environ w = (Raise e, w').
Proof.
  unfold main, bindM.
  destruct (init_buckets bucket_prefix environ w) as [[[]|e0] w1]; [|reflexivity].
  destruct (init_tools_returns w1) as (w2 & -> & _).
  split; discriminate.
Qed.

(** X7.  With no prefixed variable in the environment the server starts
    with an empty [LIMITERS] and no tool but [rate-limit]; every call of
    [rate_limit] then raises [KeyError], and a call of a tool named [limit-]
    followed by any key is answered with [NotFoundError]. *)
Theorem no_bucket_server {D : Durations} {L : Library}
    (bucket_prefix : string) (environ : list (string * string)) (s : Store) :
  (forall kv, In kv environ -> startswith (fst kv) bucket_prefix = false) ->
  main bucket_prefix environ (start s) =
  (Return tt, mkWorld [] [None] [("rate-limit", rate_limit_tool)] s) /\
  (forall bucket blocking item,
     rate_limit bucket blocking item
       (mkWorld [] [None] [("rate-limit", rate_limit_tool)] s) =
     (Raise KeyError, mkWorld [] [None] [("rate-limit", rate_limit_tool)] s)) /\
  (forall key blocking item,
     call_tool ("limit-" ++ key) blocking item
       (mkWorld [] [None] [("rate-limit", rate_limit_tool)] s) =
     (Raise (LibraryError "NotFoundError"),
      mkWorld [] [None] [("rate-limit", rate_limit_tool)] s)).
Proof.
  intros Hnone. split; [|split; reflexivity].
  assert (forall w, init_buckets bucket_prefix environ w = (Return tt, w)) as Hinit.
  { unfold init_buckets.
    induction environ as [|[key value] environ IH]; intros w; [reflexivity|].
    cbn [for_each]. unfold bindM at 1.
    rewrite init_bucket_unprefixed by apply (Hnone (key, value) (or_introl eq_refl)).
    apply IH. intros kv Hkv. apply Hnone. now right. }
  unfold main, bindM. now rewrite Hinit.
Qed.

(** X7 on an environment with [HOME] and [PATH] only. *)
Lemma no_bucket_server_witness :
  @main milliseconds granting "BUCKET_" [("HOME", "/root"); ("PATH", "/bin")]
    (@start granting []) =
  (Return tt, @mkWorld granting [] [None] [("rate-limit", rate_limit_tool)] []) /\
  (forall bucket blocking item,
     @rate_limit granting bucket blocking item
       (@mkWorld granting [] [None] [("rate-limit", rate_limit_tool)] []) =
     (Raise KeyError, @mkWorld granting [] [None] [("rate-limit", rate_limit_tool)] [])) /\
  (forall key blocking item,
     @call_tool granting ("limit-" ++ key) blocking item
       (@mkWorld granting [] [None] [("rate-limit", rate_limit_tool)] []) =
     (Raise (LibraryError "NotFoundError"),
      @mkWorld granting [] [None] [("rate-limit", rate_limit_tool)] [])).
Proof.
  apply (@no_bucket_server milliseconds granting "BUCKET_"
           [("HOME", "/root"); ("PATH", "/bin")]).
  intros kv [<-|[<-|[]]]; reflexivity.
Defined.

(** ** [init_tools] and the tools *)

(** X8.  [init_tools] ends normally and leaves [LIMITERS] and the store as
    they are.  For every key of [LIMITERS] it registers, under the name
    [limit-] followed by the key, a tool whose description names that key
    and whose function is the [inner] of this call of [init_tools]; the
    tools under other names stay as they were. *)
Theorem init_tools_registers_named_tools {L : Library} (w : world) :
  exists w',
    init_tools w = (Return tt, w') /\
    LIMITERS w' = LIMITERS w /\
    store w' = store w /\
    (forall key, In key (keys (LIMITERS w)) ->
       getitem (tools w') ("limit-" ++ key) =
       Return (mkTool (inner_of (List.length (cells w))) ("limit-" ++ key)
                      ("Acquire a permit for the bucket " ++ key))) /\
    (forall nm, (forall key, In key (keys (LIMITERS w)) -> nm <> "limit-" ++ key) ->
       getitem (tools w') nm = getitem (tools w) nm).
Proof.
  destruct (init_tools_returns w) as (w' & Hrun & HL & Hs).
  exists w'. repeat split; trivial.
  - intros key Hin. unfold init_tools, bindM at 1, new_frame in Hrun.
    unfold bindM at 1 in Hrun. cbn [LIMITERS] in Hrun.
    now apply (register_tools_table _ _ _ _ Hrun).
  - intros nm Hnm. unfold init_tools, bindM at 1, new_frame in Hrun.
    unfold bindM at 1 in Hrun. cbn [LIMITERS] in Hrun.
    now rewrite (proj2 (register_tools_table _ _ _ _ Hrun) nm Hnm).
Qed.

(** X9.  After [init_tools], the tool generated for any key of [LIMITERS]
    calls [try_acquire] on the limiter of the last key of [LIMITERS], with
    [item] and [blocking] as given. *)
Theorem generated_tool_acquires_from_last_key {L : Library}
    (w : world) (key : string) (limiter : Limiter) :
  In key (keys (LIMITERS w)) ->
  getitem (LIMITERS w) (last (keys (LIMITERS w)) "") = Return limiter ->
  exists w1,
    init_tools w = (Return tt, w1) /\
    forall blocking item,
      call_tool ("limit-" ++ key) blocking item w1 =
      call (try_acquire limiter item blocking) w1.
Proof.
  intros Hin Hlast.
  destruct (init_tools_returns w) as (w1 & Hrun & HL & _).
  exists w1. split; [exact Hrun|]. intros blocking item.
  destruct (generated_tools_share_key w key blocking item Hin)
    as (w1' & Hrun' & _ & Hcall).
  rewrite Hrun in Hrun'. injection Hrun' as <-.
  rewrite Hcall. unfold rate_limit, bindM, LIMITERS_getitem.
  now rewrite HL, Hlast.
Qed.

(** X9 on the registry of two buckets [a] and [b]: the tool [limit-a] calls
    [try_acquire] on the limiter of [b]. *)
Lemma generated_tool_acquires_from_last_key_witness :
  exists w1,
    @init_tools granting
      (@mkWorld granting [("a", ([mkRate 1 1000], "a")); ("b", ([mkRate 2 1000], "b"))]
         [] [] []) = (Return tt, w1) /\
    forall blocking item,
      @call_tool granting ("limit-" ++ "a") blocking item w1 =
      call (@try_acquire granting ([mkRate 2 1000], "b") item blocking) w1.
Proof.
  apply (@generated_tool_acquires_from_last_key granting
           (@mkWorld granting
              [("a", ([mkRate 1 1000], "a")); ("b", ([mkRate 2 1000], "b"))] [] [] [])
           "a" ([mkRate 2 1000], "b")).
  - left. reflexivity.
  - reflexivity.
Defined.

(** X10.  Serving invocations changes neither the table of tools nor the
    variable [key] of any frame of [init_tools]: of the state, only the
    store of the library can change. *)
Theorem serve_changes_only_the_store {L : Library} (invocations : list invocation)
    (w : world) :
  tools (serve invocations w) = tools w /\
  cells (serve invocations w) = cells w.
Proof.
  revert w. induction invocations as [|i rest IH]; intros w; [now split|].
  cbn [serve]. destruct (IH (snd (invoke i w))) as [-> ->].
  apply invoke_tools_cells.
Qed.

(** ** The parser *)

(** X11.  Only [","] separates descriptors: two descriptors or more, each
    with one ["/"] and no [","], joined by any character other than [","]
    and ["/"], are read as one descriptor, and parsing raises
    [ValueError]. *)
Theorem only_comma_separates {D : Durations} (sep : ascii) (descriptors : list string) :
  sep <> ","%char -> sep <> "/"%char ->
  (2 <= List.length descriptors)%nat ->
  Forall (fun d => count_char "/" d = 1%nat) descriptors ->
  Forall (fun d => count_char "," d = 0%nat) descriptors ->
  parse_rates (join sep descriptors) = Raise ValueError.
Proof.
  intros Hcomma Hslash Hlen Hone Hnone. unfold parse_rates.
  assert (Ascii.eqb sep "," = false) as Ec by now apply Ascii.eqb_neq.
  assert (Ascii.eqb sep "/" = false) as Es by now apply Ascii.eqb_neq.
  rewrite split_without by now apply count_join_other.
  cbn [parse_limits]. rewrite parse_limit_unpack; [reflexivity|].
  rewrite count_join_one by trivial. lia.
Qed.

(** X11 on [1/s;100/10m]. *)
Lemma only_comma_separates_witness :
  @parse_rates milliseconds (join ";" ["1/s"; "100/10m"]) = Raise ValueError.
Proof.
  apply (@only_comma_separates milliseconds ";"%char ["1/s"; "100/10m"]).
  - discriminate.
  - discriminate.
  - simpl. lia.
  - repeat constructor.
  - repeat constructor.
Defined.

(** X12.  A definition of one descriptor or more separated by [","], none of
    them with a [","] inside, each giving one tier when parsed on its own,
    gives these tiers in the order in which the descriptors are written. *)
Theorem comma_separated_tiers_in_order {D : Durations}
    (descriptors : list string) (tiers : list Rate) :
  descriptors <> [] ->
  Forall (fun d => count_char "," d = 0%nat) descriptors ->
  Forall2 (fun d r => forall rates, parse_limit rates d = Return (rates ++ [r])%list)
          descriptors tiers ->
  parse_rates (join "," descriptors) = Return tiers.
Proof.
  intros Hne Hcomma Htiers. unfold parse_rates.
  rewrite (split_join _ _ Hne Hcomma).
  now rewrite (parse_limits_tiers _ _ Htiers).
Qed.

(** X12 on [100/4h,2/5s]: the tiers come in the order written, not sorted. *)
Lemma comma_separated_tiers_in_order_witness :
  @parse_rates milliseconds (join "," ["100/4h"; "2/5s"]) =
  Return [mkRate 100 14400000; mkRate 2 5000].
Proof.
  apply (@comma_separated_tiers_in_order milliseconds).
  - discriminate.
  - repeat constructor.
  - repeat constructor; intros rates; reflexivity.
Defined.

(** X13.  A definition never gives more tiers than it has descriptors, that
    is, one more than it has [","]. *)
Theorem at_most_one_tier_per_descriptor {D : Durations}
    (value : string) (rates : list Rate) :
  parse_rates value = Return rates ->
  (List.length rates <= S (count_char "," value))%nat.
Proof.
  unfold parse_rates. intros H.
  destruct (parse_limits_extends _ _ _ H) as (more & -> & Hlen).
  now rewrite length_split in Hlen.
Qed.

(** X13 on [1/s,5/3x,2/m]: three descriptors, two tiers. *)
Lemma at_most_one_tier_per_descriptor_witness :
  (List.length [mkRate 1 1000; mkRate 2 60000] <= S (count_char "," "1/s,5/3x,2/m"))%nat.
Proof.
  apply (@at_most_one_tier_per_descriptor milliseconds "1/s,5/3x,2/m").
  reflexivity.
Defined.

(** X14.  A descriptor that ends with its ["/"] raises [IndexError], whatever
    stands before the ["/"]: the unit is read from an empty interval before
    the count is looked at. *)
Theorem empty_interval_raises_IndexError {D : Durations}
    (rates : list Rate) (reqs : string) :
  count_char "/" reqs = 0%nat ->
  parse_limit rates (reqs ++ "/") = Raise IndexError.
Proof.
  intros H. unfold parse_limit.
  change (reqs ++ "/") with (reqs ++ String "/" "").
  now rewrite (split_app _ _ _ H).
Qed.

(** X14 on [abc/]. *)
Lemma empty_interval_raises_IndexError_witness :
  @parse_limit milliseconds [] ("abc" ++ "/") = Raise IndexError.
Proof.
  apply (@empty_interval_raises_IndexError milliseconds). reflexivity.
Defined.

(** X15.  A definition that is one descriptor, written as a numeral, ["/"],
    a numeral and a letter that has an arm, each numeral within the digit
    limit of [int] and writing a positive number, gives the single tier with
    the number of the first numeral as limit and the number of the second
    times the factor of the letter as interval. *)
Theorem numeral_descriptor_tier {D : Durations}
    (reqs number : string) (unit : ascii) (m : Z) :
  numeral reqs = true -> Z.of_nat (String.length reqs) <= max_str_digits ->
  0 < numeral_value reqs ->
  numeral number = true -> Z.of_nat (String.length number) <= max_str_digits ->
  0 < numeral_value number ->
  multiplier unit = Some m ->
  parse_rates (reqs ++ "/" ++ number ++ String unit "") =
  Return [mkRate (numeral_value reqs) (numeral_value number * m)].
Proof.
  intros Hr Hlr Hrpos Hn Hln Hnpos Hm.
  rewrite parse_rates_single.
  - exact (parse_limit_numerals [] reqs number unit m Hr Hlr Hrpos Hn Hln Hnpos Hm).
  - change (reqs ++ "/" ++ number ++ String unit "")
      with (reqs ++ String "/" (number ++ String unit "")).
    rewrite count_char_app. cbn [count_char]. rewrite count_char_app.
    rewrite (int_without reqs _ "," (int_numeral _ Hr Hlr) eq_refl).
    rewrite (int_without number _ "," (int_numeral _ Hn Hln) eq_refl).
    cbn. destruct (Ascii.eqb_spec unit ","); [subst; discriminate Hm|reflexivity].
Qed.

(** X15 on [100/4h]. *)
Lemma numeral_descriptor_tier_witness :
  @parse_rates milliseconds ("100" ++ "/" ++ "4" ++ "h") =
  Return [mkRate (numeral_value "100") (numeral_value "4" * 3600000)].
Proof.
  apply (@numeral_descriptor_tier milliseconds "100" "4" "h"%char 3600000);
    first [reflexivity | (cbv; discriminate)].
Defined.
